(** * Neuron-activation capture and analysis: a shallow embedding

  The development follows two scripts of the repository:
  - [scripts/detailed_activations.py]: the hook-based capturer
    ([DetailedActivationCapturer]) and the capture run
    ([capture_detailed_activations]);
  - [scripts/analyze_all_emotions.py]: [load_activations], which reduces
    the captured tensors to vectors, stacks them per layer and ranks the
    neurons per emotion, and the tuning recommendations of
    [generate_emotion_report].

  Tensors are a shape with row-major data.  The scalar arithmetic of numpy
  (floating point) is not interpreted: it is an interface, [Scalar], so
  every statement holds for whatever [np.mean], subtraction, negation and
  comparison compute. *)

From Stdlib Require Import QArith.
From stdpp Require Import gmap strings list fin_maps pretty sorting.

Set Default Proof Using "Type*".
#[local] Set Warnings "-clear-no-such-hyp".

(** ** Scalars and tensors *)

Class Scalar (F : Type) := {
  np_mean : list F → F;       (* np.mean of the values of one column *)
  np_sub : F → F → F;
  np_neg : F → F;
  np_lt : F → F → bool
}.

Record tensor (F : Type) := Tensor { shape : list nat; data : list F }.
Arguments Tensor {F} shape data.
Arguments shape {F} t.
Arguments data {F} t.

(** What the scripts print, as far as the claims look at it. *)
Inductive log_event :=
  | FlatteningUnusual (orig_shape : list nat)
  | NoValidActivations (layer : string)
  | LayerLoaded (layer : string) (count : nat)
  | ErrorCreatingArray (layer : string) (shapes : list (list nat))
  | UsingOnlyShape (most_common_shape : list nat)
  | LoadedAfterFiltering (layer : string) (count : nat)
  | FoundImportant (layer emotion : string)
  | StillUnable (layer : string)
  | SamplePrinted (i : nat) (label : string).

(** Python exceptions and the outcome of a call that may raise. *)
Inductive exn := IndexError | KeyError | ValueError | ModelError.

Inductive result (A : Type) :=
  | Ok (a : A)
  | Raise (e : exn).
Arguments Ok {A} a.
Arguments Raise {A} e.

Definition bind_result {A B} (r : result A) (k : A → result B) : result B :=
  match r with Ok a => k a | Raise e => Raise e end.

Section Tensors.
Context {F : Type}.

(** [a.shape[k]] where it is read after a rank test *)
Definition dim (a : tensor F) (k : nat) : nat := nth k (shape a) 0.

Definition rank (a : tensor F) : nat := length (shape a).

(** number of elements of an array of shape [sh] *)
Definition size_of (sh : list nat) : nat := foldr Nat.mul 1 sh.

(** [wf a]: the data fill the shape *)
Definition wf (a : tensor F) : Prop := length (data a) = size_of (shape a).

(** [a[0, 0, :]] on a rank-3 array *)
Definition index_0_0 (a : tensor F) : tensor F :=
  Tensor [dim a 2] (take (dim a 2) (data a)).

(** [a[0]] on a rank-3 array *)
Definition index_0 (a : tensor F) : tensor F :=
  Tensor [dim a 1; dim a 2] (take (dim a 1 * dim a 2) (data a)).

(** column [j] of a [rows] x [cols] row-major matrix *)
Definition column (rows cols j : nat) (d : list F) : list F :=
  omap (λ i, d !! (i * cols + j)) (seq 0 rows).

(** [a.flatten()] *)
Definition flatten (a : tensor F) : tensor F :=
  Tensor [size_of (shape a)] (data a).
End Tensors.

Section Normalize.
Context {F : Type} `{Scalar F}.

(** [np.mean(a, axis=0)] on a rank-2 array *)
Definition mean_axis0 (a : tensor F) : tensor F :=
  Tensor [dim a 1]
    (map (λ j, np_mean (column (dim a 0) (dim a 1) j (data a)))
         (seq 0 (dim a 1))).

(** analyze_all_emotions.py, lines 69-96: the shape dispatch of
    [load_activations] on one stored array. *)
Definition normalize_one (neuron_activations : tensor F)
  : tensor F * list log_event :=
  let orig_shape := shape neuron_activations in
  if (rank neuron_activations =? 3)
     && (dim neuron_activations 0 =? 1)
     && (dim neuron_activations 1 =? 1)
  then (index_0_0 neuron_activations, [])
  else if (rank neuron_activations =? 3)
          && (dim neuron_activations 0 =? 1)
  then (mean_axis0 (index_0 neuron_activations), [])
  else if rank neuron_activations =? 2
  then (mean_axis0 neuron_activations, [])
  else if rank neuron_activations =? 1
  then (neuron_activations, [])
  else (flatten neuron_activations, [FlatteningUnusual orig_shape]).
End Normalize.

(** ** The analysis: [load_activations] of analyze_all_emotions.py *)

(** One element of a stored layer list: a dict, with or without a ["data"]
    entry, or anything else. *)
Inductive item (F : Type) :=
  | ItemDict (item_data : option (tensor F))
  | ItemOther.
Arguments ItemDict {F} item_data.
Arguments ItemOther {F}.

(** [np.argsort] with its default [kind]: numpy's quicksort, which numpy
    documents as not stable.  It is an interface; [argsort_sorts] is what
    the library promises of it. *)
Class Argsort (F : Type) := argsort : list F → list nat.




(** [collections.Counter(l)]: the counts, keyed in first-occurrence order *)
Fixpoint counter_incr {K} `{EqDecision K} (k : K) (c : list (K * nat))
  : list (K * nat) :=
  match c with
  | [] => [(k, 1)]
  | (k', n) :: c' =>
      if decide (k' = k) then (k', S n) :: c' else (k', n) :: counter_incr k c'
  end.

Definition Counter {K} `{EqDecision K} (l : list K) : list (K * nat) :=
  foldl (λ c k, counter_incr k c) [] l.

(** [max(items, key=itemgetter(1))], which is what [most_common(1)] runs:
    the first item with the largest count *)
Definition max_by_count {K} (c : list (K * nat)) : option (K * nat) :=
  foldl (λ best kv,
           match best with
           | None => Some kv
           | Some b => if b.2 <? kv.2 then Some kv else Some b
           end) None c.

Definition most_common_1 {K} `{EqDecision K} (l : list K) : option K :=
  fst <$> max_by_count (Counter l).

(** how often [k] occurs in [l] *)
Definition occurrences {K} `{EqDecision K} (k : K) (l : list K) : nat :=
  length (filter (λ x, x = k) l).

(** the count a [Counter] holds for [k] *)
Fixpoint cget {K} `{EqDecision K} (k : K) (c : list (K * nat)) : nat :=
  match c with
  | [] => 0
  | (k', n) :: c' => if decide (k' = k) then n else cget k c'
  end.

(** [np.unique] on labels: the distinct labels, sorted *)
Definition string_le (a b : string) : Prop := String.leb a b = true.
#[global] Instance string_le_dec : RelDecision string_le.
Proof. intros a b. unfold string_le. apply _. Defined.

Definition np_unique (l : list string) : list string :=
  merge_sort string_le (remove_dups l).

(** [np.where(np.array(all_labels) == emotion)[0]] and its negation *)
Definition where_label (test : string → bool) (all_labels : list string)
  : list nat :=
  omap (λ il : nat * string, if test il.2 then Some il.1 else None)
       (imap (λ i l, (i, l)) all_labels).


(** [d[idx]] with an integer index array: IndexError out of range *)
Fixpoint fancy_index {A} (d : list A) (idx : list nat) : result (list A) :=
  match idx with
  | [] => Ok []
  | i :: idx' =>
      match d !! i with
      | None => Raise IndexError
      | Some x => bind_result (fancy_index d idx') (λ xs, Ok (x :: xs))
      end
  end.

(** [str.endswith] *)
Definition endswith (s suffix : string) : bool :=
  String.prefix (String.rev suffix) (String.rev s).

Section Analysis.
Context {F : Type} `{Scalar F} `{Argsort F}.

(** [np.mean(rows, axis=0)] of rows of a matrix of the given width *)
Definition mean_rows (width : nat) (rows : list (list F)) : list F :=
  map (λ j, np_mean (omap (λ r : list F, r !! j) rows)) (seq 0 width).

(** [np.stack]: a ValueError unless there is an array and all shapes agree *)
Definition np_stack (arrays : list (tensor F)) : result (list (list F)) :=
  match arrays with
  | [] => Raise ValueError
  | a :: _ =>
      if forallb (λ b, bool_decide (shape b = shape a)) arrays
      then Ok (data <$> arrays) else Raise ValueError
  end.

(** What one pass of the emotion loop leaves in
    [neuron_importance_by_emotion[emotion][layer]]. *)
Inductive importance_entry :=
  | Stored (neurons : list nat) (scores : list F)
  | Skipped.

(** lines 160-187, the body of [for emotion in unique_emotions];
    [width] is [activations_array.shape[1]] *)
Definition importance (width : nat) (activations_array : list (list F))
    (all_labels : list string) (emotion : string) : result importance_entry :=
  let emotion_indices := where_label (λ l, bool_decide (l = emotion)) all_labels in
  let other_indices := where_label (λ l, bool_decide (l ≠ emotion)) all_labels in
  if (0 <? length emotion_indices) && (0 <? length other_indices) then
    bind_result (fancy_index activations_array emotion_indices) (λ emotion_activations,
    bind_result (fancy_index activations_array other_indices) (λ other_activations,
      let emotion_mean := mean_rows width emotion_activations in
      let other_mean := mean_rows width other_activations in
      let diff := zip_with np_sub emotion_mean other_mean in
      let top_n := 20 `min` length diff in
      let top_neurons := take top_n (argsort (np_neg <$> diff)) in
      bind_result (fancy_index diff top_neurons) (λ scores,
        Ok (Stored top_neurons scores))))
  else Ok Skipped.
End Analysis.

Arguments Stored {F} neurons scores.
Arguments Skipped {F}.

(** What lines 116-155 leave behind for one layer: the stacked array with
    the labels stored beside it in [activations_by_layer], or nothing when
    the loop [continue]s. *)
Inductive stacked (F : Type) :=
  | Stacked (width : nat) (activations_array : list (list F))
            (stored_labels : list string)
  | StackFailed.
Arguments Stacked {F} width activations_array stored_labels.
Arguments StackFailed {F}.

(** The three dictionaries [load_activations] returns, and what it printed. *)
Record analysis (F : Type) := Analysis {
  activations_by_layer : gmap string (list (list F) * list string);
  activations_by_emotion : gmap string (gmap string (list (tensor F)));
  neuron_importance_by_emotion : gmap string (gmap string (list nat * list F));
  printed : list log_event
}.
Arguments Analysis {F} _ _ _ _.
Arguments activations_by_layer {F} a.
Arguments activations_by_emotion {F} a.
Arguments neuron_importance_by_emotion {F} a.
Arguments printed {F} a.

Section Loading.
Context {F : Type} `{Scalar F} `{Argsort F}.

(** lines 54-108: the loop over [enumerate(layer_data)], from index [i] on;
    it pairs every reduced array with [metadata["labels"][i]] *)
Fixpoint collect_from (i : nat) (labels : list string)
    (layer_data : list (item F)) : list (tensor F * string) * list log_event :=
  match layer_data with
  | [] => ([], [])
  | it :: rest =>
      let '(acc, logs) := collect_from (S i) labels rest in
      if length labels <=? i then (acc, logs)
      else match it, labels !! i with
           | ItemDict (Some a), Some label =>
               let '(v, lg) := normalize_one a in ((v, label) :: acc, lg ++ logs)
           | _, _ => (acc, logs)
           end
  end.

(** the arrays of the most common shape, with their labels (lines 137-142) *)
Definition filter_shape (most_common_shape : list nat)
    (all_activations : list (tensor F)) (all_labels : list string)
  : list (tensor F * string) :=
  filter (λ al : tensor F * string, shape al.1 = most_common_shape)
         (zip all_activations all_labels).

Definition width_of (arrays : list (tensor F)) : nat :=
  match arrays with a :: _ => dim a 0 | [] => 0 end.

(** lines 116-155 *)
Definition stack_layer (layer : string) (all_activations : list (tensor F))
    (all_labels : list string) : result (stacked F * list log_event) :=
  match np_stack all_activations with
  | Ok activations_array =>
      Ok (Stacked (width_of all_activations) activations_array all_labels,
          [LayerLoaded layer (length all_activations)])
  | Raise _ =>
      let shapes := shape <$> all_activations in
      match most_common_1 shapes with
      | None => Raise IndexError
      | Some most_common_shape =>
          let filtered := filter_shape most_common_shape all_activations all_labels in
          let filtered_activations := filtered.*1 in
          let filtered_labels := filtered.*2 in
          let logs := [ErrorCreatingArray layer shapes; UsingOnlyShape most_common_shape] in
          match np_stack filtered_activations with
          | Ok activations_array =>
              Ok (Stacked (width_of filtered_activations) activations_array filtered_labels,
                  logs ++ [LoadedAfterFiltering layer (length filtered_activations)])
          | Raise _ => Ok (StackFailed, logs ++ [StillUnable layer])
          end
      end
  end.

(** lines 160-187: the loop over [unique_emotions] *)
Fixpoint importance_loop (layer : string) (width : nat)
    (activations_array : list (list F)) (all_labels : list string)
    (unique_emotions : list string) (st : analysis F) : result (analysis F) :=
  match unique_emotions with
  | [] => Ok st
  | emotion :: rest =>
      bind_result (importance width activations_array all_labels emotion) (λ e,
        importance_loop layer width activations_array all_labels rest
          match e with
          | Skipped => st
          | Stored top_neurons scores =>
              let by_layer := default ∅ (neuron_importance_by_emotion st !! emotion) in
              Analysis (activations_by_layer st) (activations_by_emotion st)
                (<[emotion := <[layer := (top_neurons, scores)]> by_layer]>
                   (neuron_importance_by_emotion st))
                (printed st ++ [FoundImportant layer emotion])
          end)
  end.

(** line 101: [activations_by_emotion[label][layer].append(...)] *)
Definition record_by_emotion (layer : string) (kept : list (tensor F * string))
    (m : gmap string (gmap string (list (tensor F))))
  : gmap string (gmap string (list (tensor F))) :=
  foldl (λ m (vl : tensor F * string),
           let inner := default ∅ (m !! vl.2) in
           <[vl.2 := <[layer := default [] (inner !! layer) ++ [vl.1]]> inner]> m)
        m kept.

(** lines 46-187: the body of [for layer in key_layers] *)
Definition process_layer (labels : list string)
    (torch_load : string → list (item F)) (st : analysis F) (layer : string)
  : result (analysis F) :=
  let layer_data := torch_load (layer +:+ "_activations.pt") in
  let '(kept, logs) := collect_from 0 labels layer_data in
  let all_activations := kept.*1 in
  let all_labels := kept.*2 in
  let by_emotion := record_by_emotion layer kept (activations_by_emotion st) in
  match all_activations with
  | [] =>
      Ok (Analysis (activations_by_layer st) by_emotion
            (neuron_importance_by_emotion st)
            (printed st ++ logs ++ [NoValidActivations layer]))
  | _ :: _ =>
      bind_result (stack_layer layer all_activations all_labels) (λ sl,
        match sl.1 with
        | StackFailed =>
            Ok (Analysis (activations_by_layer st) by_emotion
                  (neuron_importance_by_emotion st) (printed st ++ logs ++ sl.2))
        | Stacked width activations_array stored_labels =>
            importance_loop layer width activations_array all_labels
              (np_unique all_labels)
              (Analysis (<[layer := (activations_array, stored_labels)]>
                           (activations_by_layer st))
                        by_emotion (neuron_importance_by_emotion st)
                        (printed st ++ logs ++ sl.2))
        end)
  end.

Fixpoint process_layers (labels : list string)
    (torch_load : string → list (item F)) (layers : list string)
    (st : analysis F) : result (analysis F) :=
  match layers with
  | [] => Ok st
  | layer :: rest =>
      bind_result (process_layer labels torch_load st layer)
                  (process_layers labels torch_load rest)
  end.

(** lines 26-39 *)
Definition activation_files_of (listdir : list string) : list string :=
  filter (λ f, endswith f "_activations.pt" = true) listdir.

Definition key_layers_of (activation_files : list string) : list string :=
  filter (λ layer, (layer +:+ "_activations.pt") ∈ activation_files)
         ["final_layer"; "layer_11"; "layer_10"; "layer_9"].

(** [load_activations]: [listdir] is [os.listdir(activations_dir)],
    [torch_load] the content of each file of the directory and [labels]
    is [metadata["labels"]].  It returns the dictionaries and [key_layers]. *)
Definition load_activations (listdir : list string)
    (torch_load : string → list (item F)) (labels : list string)
  : result (analysis F * list string) :=
  let activation_files := activation_files_of listdir in
  let key_layers := key_layers_of activation_files in
  bind_result (process_layers labels torch_load key_layers (Analysis ∅ ∅ ∅ []))
              (λ st, Ok (st, key_layers)).
End Loading.

(** ** The capture: detailed_activations.py *)

(** What a module hands to its forward hook: a tensor, or a tuple whose
    first element is one. *)
Inductive hook_output (F : Type) :=
  | OutTensor (t : tensor F)
  | OutTuple (ts : list (tensor F)).
Arguments OutTensor {F} t.
Arguments OutTuple {F} ts.

(** The mutable state a capture run works on: the forward hooks attached to
    the modules of the model (handle id to component name, as torch keeps
    them), the fields of the [DetailedActivationCapturer] object, the
    standard output, and a ghost counter of the calls of [remove_hooks]. *)
Record world (F : Type) := World {
  model_hooks : gmap nat string;
  next_handle : nat;
  hooks : list nat;                       (* self.hooks *)
  activations : gmap string (tensor F);   (* self.activations *)
  capture_enabled : bool;                 (* self.capture_enabled *)
  removals : nat;
  stdout : list log_event
}.
Arguments World {F} _ _ _ _ _ _ _.
Arguments model_hooks {F} w.
Arguments next_handle {F} w.
Arguments hooks {F} w.
Arguments activations {F} w.
Arguments capture_enabled {F} w.
Arguments removals {F} w.
Arguments stdout {F} w.

(** A computation on the world that returns or raises. *)
Definition M (F A : Type) : Type := world F → result A * world F.

Definition ret {F A} (a : A) : M F A := λ w, (Ok a, w).

Definition raise {F A} (e : exn) : M F A := λ w, (Raise e, w).

Definition bind {F A B} (c : M F A) (k : A → M F B) : M F B :=
  λ w, match c w with
       | (Ok a, w') => k a w'
       | (Raise e, w') => (Raise e, w')
       end.

(** [try: c finally: f] *)
Definition finally {F A} (c : M F A) (f : M F unit) : M F A :=
  λ w, match c w with
       | (r, w') =>
           match f w' with
           | (Ok _, w'') => (r, w'')
           | (Raise e, w'') => (Raise e, w'')
           end
       end.

Notation "'let*' x := c 'in' k" := (bind c (λ x, k))
  (at level 10, x name, c at level 100, k at level 200, only parsing).
Notation "c >>> k" := (bind c (λ _, k))
  (at level 90, right associativity, only parsing).

(** The result of one forward pass on given tokens: the modules that ran,
    by the name of the component hooked on them, each with its output, in
    execution order; whether the pass then fails; and the text decoded from
    the sampled next token. *)
Record inference (F : Type) := Inference {
  fired : list (string * hook_output F);
  fails : bool;
  generated_text : string
}.
Arguments Inference {F} _ _ _.
Arguments fired {F} i.
Arguments fails {F} i.
Arguments generated_text {F} i.

(** The GPT model as the run uses it ([model.py] is not part of the
    scripts): its configuration and its forward pass. *)
Record model (F : Type) := Model {
  n_layer : nat;
  block_size : Z;
  forward : list Z → inference F
}.
Arguments Model {F} _ _ _.
Arguments n_layer {F} m.
Arguments block_size {F} m.
Arguments forward {F} m.

Record tweet := Tweet { text : string; label : string }.

(** One stored record [{"data": ..., "label": ..., "tweet_id": ...}] *)
Record sample (F : Type) := Sample {
  sample_data : tensor F;
  sample_label : string;
  tweet_id : string
}.
Arguments Sample {F} _ _ _.
Arguments sample_data {F} s.
Arguments sample_label {F} s.
Arguments tweet_id {F} s.

(** The local variables of [capture_detailed_activations] that are saved. *)
Record capture_run (F : Type) := CaptureRun {
  activation_data : gmap string (list (sample F));
  all_tweet_ids : list string;
  all_tweets : list string;
  all_labels : list string;
  all_generated : list string;
  all_token_lengths : list nat
}.
Arguments CaptureRun {F} _ _ _ _ _ _.
Arguments activation_data {F} c.
Arguments all_tweet_ids {F} c.
Arguments all_tweets {F} c.
Arguments all_labels {F} c.
Arguments all_generated {F} c.
Arguments all_token_lengths {F} c.

(** Python's [l[start:]] *)
Definition slice_from {A} (start : Z) (l : list A) : list A :=
  let n := Z.of_nat (length l) in
  let s := if (start <? 0)%Z then Z.max (n + start) 0 else Z.min start n in
  drop (Z.to_nat s) l.

(** lines 339-341: the crop of the input to the context window *)
Definition crop (block_size : Z) (input_ids : list Z) : list Z :=
  if (block_size <? Z.of_nat (length input_ids))%Z
  then slice_from (- block_size) input_ids
  else input_ids.

(** the component names of [register_hooks], in registration order *)
Definition layer_components (i : nat) : list string :=
  let p := "layer_" +:+ pretty i in
  [p +:+ "_output"; p +:+ "_ln_1"; p +:+ "_attn"; p +:+ "_attn_proj";
   p +:+ "_ln_2"; p +:+ "_mlp"; p +:+ "_mlp_fc"].

Definition component_names (n_layer : nat) : list string :=
  "input_embeds" :: flat_map layer_components (seq 0 n_layer) ++ ["final_layer"].

Section Capturer.
Context {F : Type}.

(** [output[:, -1, :]] on a rank-3 tensor: IndexError when the sequence
    dimension is empty *)
Definition select_last (output : tensor F) : result (tensor F) :=
  let b := dim output 0 in
  let s := dim output 1 in
  let d := dim output 2 in
  if s =? 0 then Raise IndexError
  else Ok (Tensor [b; d]
             (flat_map (λ k, take d (drop ((k * s + (s - 1)) * d) (data output)))
                       (seq 0 b))).

(** [DetailedActivationCapturer.__init__] *)
Definition new_capturer : M F unit := λ w,
  (Ok tt, World (model_hooks w) (next_handle w) [] ∅ false (removals w) (stdout w)).

(** [self.activations[name] = value] *)
Definition set_activation (name : string) (value : tensor F) (w : world F)
  : world F :=
  World (model_hooks w) (next_handle w) (hooks w)
        (<[name := value]> (activations w)) (capture_enabled w)
        (removals w) (stdout w).

(** the tensor a hook looks at: the output, or the first element of a tuple *)
Definition primary (outputs : hook_output F) : option (tensor F) :=
  match outputs with
  | OutTensor t => Some t
  | OutTuple ts => head ts
  end.

(** lines 161-180: the hook that [_capture_hook(name)] returns *)
Definition capture_hook (name : string) (outputs : hook_output F) : M F unit :=
  λ w,
    if capture_enabled w then
      match (match outputs with
             | OutTuple [] => Raise IndexError
             | OutTuple (t :: _) => Ok t
             | OutTensor t => Ok t
             end) with
      | Raise e => (Raise e, w)
      | Ok output =>
          if rank output =? 3 then
            match select_last output with
            | Raise e => (Raise e, w)
            | Ok last => (Ok tt, set_activation name last w)
            end
          else (Ok tt, set_activation name output w)
      end
    else (Ok tt, w).

(** [self.hooks.append(module.register_forward_hook(self._capture_hook(name)))] *)
Definition register_hook (name : string) : M F unit := λ w,
  (Ok tt, World (<[next_handle w := name]> (model_hooks w)) (S (next_handle w))
            (hooks w ++ [next_handle w]) (activations w) (capture_enabled w)
            (removals w) (stdout w)).

Fixpoint for_each {A} (f : A → M F unit) (l : list A) : M F unit :=
  match l with
  | [] => ret tt
  | x :: l' => f x >>> for_each f l'
  end.

(** lines 182-247 *)
Definition register_hooks (n_layer : nat) : M F unit :=
  for_each register_hook (component_names n_layer).

(** lines 254-258 *)
Definition remove_hooks : M F unit := λ w,
  (Ok tt, World (foldl (λ mh h, delete h mh) (model_hooks w) (hooks w))
            (next_handle w) [] (activations w) (capture_enabled w)
            (S (removals w)) (stdout w)).

(** lines 260-263 *)
Definition start_capture : M F unit := λ w,
  (Ok tt, World (model_hooks w) (next_handle w) (hooks w) ∅ true
            (removals w) (stdout w)).

(** lines 265-267 *)
Definition stop_capture : M F unit := λ w,
  (Ok tt, World (model_hooks w) (next_handle w) (hooks w) (activations w) false
            (removals w) (stdout w)).

(** lines 269-271 *)
Definition get_activations : M F (gmap string (tensor F)) := λ w,
  (Ok (activations w), w).

Definition print (e : log_event) : M F unit := λ w,
  (Ok tt, World (model_hooks w) (next_handle w) (hooks w) (activations w)
            (capture_enabled w) (removals w) (stdout w ++ [e])).

(** A module runs: torch calls every forward hook attached to it. *)
Definition fire (ev : string * hook_output F) : M F unit := λ w,
  for_each (λ hn : nat * string, capture_hook hn.2 ev.2)
           (filter (λ hn : nat * string, hn.2 = ev.1)
                   (map_to_list (model_hooks w))) w.

(** [model(input_tensor)] and the sampling of the next token *)
Definition run_forward (m : model F) (input_tensor : list Z) : M F string :=
  let inf := forward m input_tensor in
  for_each fire (fired inf) >>>
  if fails inf then raise ModelError else ret (generated_text inf).

(** lines 363-373 *)
Definition store_activations (label tweet_id : string)
    (acts : gmap string (tensor F))
    (activation_data : gmap string (list (sample F)))
  : gmap string (list (sample F)) :=
  map_fold (λ layer_name activation ad,
              <[layer_name := default [] (ad !! layer_name)
                                ++ [Sample activation label tweet_id]]> ad)
           activation_data acts.

Section Run.
Context (encode : string → list Z).

(** lines 325-387: the body of the loop, for tweet number [i] *)
Definition process_tweet (m : model F) (i : nat) (tweet_data : tweet)
    (run : capture_run F) : M F (capture_run F) :=
  let tweet_id := pretty i in
  let input_ids := encode (text tweet_data) in
  start_capture >>>
  let input_tensor := crop (block_size m) input_ids in
  let* generated := run_forward m input_tensor in
  stop_capture >>>
  let* acts := get_activations in
  let activation_data' :=
    store_activations (label tweet_data) tweet_id acts (activation_data run) in
  (if i mod 20 =? 0 then print (SamplePrinted i (label tweet_data)) else ret tt) >>>
  ret (CaptureRun activation_data'
         (all_tweet_ids run ++ [tweet_id])
         (all_tweets run ++ [text tweet_data])
         (all_labels run ++ [label tweet_data])
         (all_generated run ++ [generated])
         (all_token_lengths run ++ [length input_ids])).

Fixpoint process_tweets (m : model F) (i : nat) (tweets : list tweet)
    (run : capture_run F) : M F (capture_run F) :=
  match tweets with
  | [] => ret run
  | tweet_data :: rest =>
      let* run' := process_tweet m i tweet_data run in
      process_tweets m (S i) rest run'
  end.

(** lines 318-391: the capturer is created, the hooks are registered, the
    tweets are processed inside [try], and [finally] removes the hooks.
    The result is what lines 393-406 then save. *)
Definition capture_detailed_activations (m : model F) (tweets : list tweet)
  : M F (capture_run F) :=
  new_capturer >>>
  register_hooks (n_layer m) >>>
  finally (process_tweets m 0 tweets (CaptureRun ∅ [] [] [] [] []))
          remove_hooks.
End Run.
End Capturer.

(** The world before a run: a model with no hook attached. *)
Definition init_world {F} : world F := World ∅ 0 [] ∅ false 0 [].

(** Two worlds with the same registered hooks and teardown count. *)
Definition same_hooks {F} (w w' : world F) : Prop :=
  model_hooks w' = model_hooks w ∧ hooks w' = hooks w ∧
  removals w' = removals w.

(** A computation that neither registers nor removes a hook. *)
Definition keeps_hooks {F A} (c : M F A) : Prop :=
  ∀ w, same_hooks w (c w).2.

(** The samples of one component, for the first [n] tweets: no example id
    twice, and every sample carries the id and the label of its tweet. *)
Definition well_labelled {F} (tweets : list tweet) (n : nat)
    (l : list (sample F)) : Prop :=
  NoDup (tweet_id <$> l) ∧
  ∀ s, s ∈ l →
    ∃ i tweet_data, i < n ∧ tweets !! i = Some tweet_data ∧
                    tweet_id s = pretty i ∧ sample_label s = label tweet_data.

(** Every inner dictionary of a two-level dictionary is keyed by layers of [L]. *)
Definition inner_keys_in {V} (L : gset string) (m : gmap string (gmap string V))
  : Prop :=
  ∀ e inner, m !! e = Some inner → dom inner ⊆ L.

(** The dictionaries of an analysis mention no layer outside [L]. *)
Definition only_layers {F} (L : gset string) (st : analysis F) : Prop :=
  dom (activations_by_layer st) ⊆ L ∧
  inner_keys_in L (activations_by_emotion st) ∧
  inner_keys_in L (neuron_importance_by_emotion st).

(** ** More of detailed_activations.py *)

(** lines 427-452: the component names [list_available_components] prints,
    in order *)
Definition listed_layer (i : nat) : list string :=
  let p := "layer_" +:+ pretty i in
  [p +:+ "_output"; p +:+ "_ln_1"; p +:+ "_attn"; p +:+ "_attn_proj";
   p +:+ "_ln_2"; p +:+ "_mlp"; p +:+ "_mlp_fc"].

Definition listed_components (n_layer : nat) : list string :=
  ["input_embeds"] ++ flat_map listed_layer (seq 0 n_layer)
  ++ ["final_layer"; "logits"].

(** lines 393-424: the names of the files the run writes into its output
    directory *)
Definition saved_files {F} (run : capture_run F) : list string :=
  ((λ kv : string * list (sample F), kv.1 +:+ "_activations.pt")
     <$> map_to_list (activation_data run))
  ++ ["gen_metadata.pt"; "samples.json"].

(** a site output on which the hook does not raise: a tensor, or a tuple
    with a first element, that is not of rank 3 with an empty sequence *)
Definition benign {F} (outputs : hook_output F) : bool :=
  match primary outputs with
  | Some output => negb ((rank output =? 3) && (dim output 1 =? 0))
  | None => false
  end.

(** Python's [l[:stop]] *)
Definition slice_to {A} (stop : Z) (l : list A) : list A :=
  let n := Z.of_nat (length l) in
  let s := if (stop <? 0)%Z then Z.max (n + stop) 0 else Z.min stop n in
  take (Z.to_nat s) l.

(** lines 303-304: [if max_tweets is not None: tweets = tweets[:max_tweets]] *)
Definition limit_tweets (max_tweets : option Z) (tweets : list tweet)
  : list tweet :=
  match max_tweets with
  | None => tweets
  | Some k => slice_to k tweets
  end.

(** what an enabled hook stores for a site output, or the exception it raises *)
Definition extract {F} (outputs : hook_output F) : result (tensor F) :=
  match outputs with
  | OutTuple [] => Raise IndexError
  | OutTuple (t :: _) | OutTensor t =>
      if rank t =? 3 then select_last t else Ok t
  end.

(** the components that have a hook attached *)
Definition registered {F} (w : world F) (name : string) : Prop :=
  ∃ h, model_hooks w !! h = Some name.

(** ** The report: generate_emotion_report of analyze_all_emotions.py *)

(** The local variables of the search of lines 371-381. *)
Record search (F : Type) := Search {
  best_layer : option string;
  top_score : F;
  top_neuron : option nat
}.
Arguments Search {F} _ _ _.
Arguments best_layer {F} s.
Arguments top_score {F} s.
Arguments top_neuron {F} s.

(** What lines 383-399 write for one emotion. *)
Inductive recommendation (F : Type) :=
  | Recommend (layer : string) (primary_neuron : option nat) (score : F)
              (neuron_info : list (nat * F))
  | NoStrongNeurons.
Arguments Recommend {F} layer primary_neuron score neuron_info.
Arguments NoStrongNeurons {F}.

Section Report.
Context {F : Type} `{Scalar F}.

(** the integer 0 that [top_score] starts from *)
Variable zero : F.

(** [neuron_importance[emotion][layer]], when both keys are present *)
Definition entry (neuron_importance : gmap string (gmap string (list nat * list F)))
    (emotion layer : string) : option (list nat * list F) :=
  neuron_importance !! emotion ≫= λ by_layer, by_layer !! layer.

(** lines 376-381: the body of [for layer in key_layers] *)
Definition best_step
    (neuron_importance : gmap string (gmap string (list nat * list F)))
    (emotion : string) (st : search F) (layer : string) : result (search F) :=
  match entry neuron_importance emotion layer with
  | Some (neurons, scores) =>
      match scores with
      | s0 :: _ =>
          if np_lt (top_score st) s0 then
            match neurons with
            | n0 :: _ => Ok (Search (Some layer) s0 (Some n0))
            | [] => Raise IndexError
            end
          else Ok st
      | [] => Ok st
      end
  | None => Ok st
  end.

Fixpoint best_search
    (neuron_importance : gmap string (gmap string (list nat * list F)))
    (emotion : string) (key_layers : list string) (st : search F)
  : result (search F) :=
  match key_layers with
  | [] => Ok st
  | layer :: rest =>
      bind_result (best_step neuron_importance emotion st layer)
                  (best_search neuron_importance emotion rest)
  end.

(** lines 370-399, for one emotion; [if best_layer:] is false for [None]
    and for the empty string *)
Definition recommend
    (neuron_importance : gmap string (gmap string (list nat * list F)))
    (key_layers : list string) (emotion : string) : result (recommendation F) :=
  bind_result (best_search neuron_importance emotion key_layers
                           (Search None zero None)) (λ st,
    match best_layer st with
    | Some layer =>
        if bool_decide (layer = "") then Ok NoStrongNeurons
        else match neuron_importance !! emotion with
             | Some by_layer =>
                 match by_layer !! layer with
                 | Some (neurons, scores) =>
                     Ok (Recommend layer (top_neuron st) (top_score st)
                           (zip (take 3 neurons) (take 3 scores)))
                 | None => Raise KeyError
                 end
             | None => Raise KeyError
             end
    | None => Ok NoStrongNeurons
    end).
End Report.

(** What the search knows after the layers [L]: its best layer is one of
    them, with a first score above [zero] that no first score among them
    exceeds. *)
Definition search_inv {F} `{Scalar F} (zero : F)
    (neuron_importance : gmap string (gmap string (list nat * list F)))
    (emotion : string) (L : list string) (st : search F) : Prop :=
  match best_layer st with
  | None => top_score st = zero ∧ top_neuron st = None
  | Some layer =>
      layer ∈ L ∧ np_lt zero (top_score st) = true ∧
      ∃ n0 neurons scores,
        entry neuron_importance emotion layer
        = Some (n0 :: neurons, top_score st :: scores) ∧
        top_neuron st = Some n0
  end ∧
  ∀ layer neurons s scores,
    layer ∈ L →
    entry neuron_importance emotion layer = Some (neurons, s :: scores) →
    np_lt (top_score st) s = false.

(** Every entry has as many neurons as scores. *)
Definition balanced {F}
    (neuron_importance : gmap string (gmap string (list nat * list F))) : Prop :=
  ∀ emotion by_layer layer neurons scores,
    neuron_importance !! emotion = Some by_layer →
    by_layer !! layer = Some (neurons, scores) →
    length neurons = length scores.

(** ** Instances to run the definitions on *)

(** Exact rational arithmetic for the scalars. *)
Definition Qsum (l : list Q) : Q := foldr Qplus 0%Q l.

Definition Q_lt (x y : Q) : bool :=
  match (x ?= y)%Q with Lt => true | _ => false end.

Definition Q_scalar : Scalar Q := {|
  np_mean l := Qred (Qsum l / inject_Z (Z.of_nat (length l)));
  np_sub x y := Qred (x - y);
  np_neg x := Qred (- x);
  np_lt := Q_lt
|}.

(** An argsort by insertion: every index goes in front of the first index
    already placed whose value is larger, so equal values stay in ascending
    index order, as the insertion sort of numpy leaves them. *)
Definition lt_at `{Scalar F} (v : list F) (i j : nat) : bool :=
  match v !! i, v !! j with
  | Some x, Some y => np_lt x y
  | _, _ => false
  end.

Fixpoint insert_index `{Scalar F} (v : list F) (i : nat) (p : list nat)
  : list nat :=
  match p with
  | [] => [i]
  | j :: p' => if lt_at v i j then i :: j :: p' else j :: insert_index v i p'
  end.

Definition argsort_insertion `{Scalar F} : Argsort F :=
  λ v, foldl (λ p i, insert_index v i p) [] (seq 0 (length v)).

(** ** numpy's quicksort on an index array

    [np.argsort] with the default [kind] runs [aquicksort_] of numpy's
    [npysort/quicksort.cpp] where no vectorised sort is dispatched: the
    index array [tosort] is partitioned around the median of three while a
    range spans more than [SMALL_QUICKSORT] = 16 positions, shorter ranges
    are sorted by insertion, and a range whose depth budget is used up goes
    to [aheapsort_].  Positions are numbers, [vp] is kept as the index of
    the pivot, and the loops of the C code get their bound as fuel. *)

Section Quicksort.
Context {F : Type} `{Scalar F}.
Variable v : list F.










End Quicksort.


(** A comparison that sorting can rely on. *)
Definition strict_weak_order (F : Type) `{Scalar F} : Prop :=
  (∀ x y : F, np_lt x y = true → np_lt y x = false) ∧
  (∀ x y z : F, np_lt x y = false → np_lt y z = false → np_lt x z = false).





(** A rank-2 tensor, as a site might produce. *)
Definition example_rank2 : tensor Q := Tensor [2; 3] [1; 2; 3; 4; 5; 6]%Q.

(** A rank-3 tensor [1, 2, 3]: one batch row, two positions, three features. *)
Definition example_rank3 : tensor Q := Tensor [1; 2; 3] [1; 2; 3; 4; 5; 6]%Q.

(** A model of one layer whose sites all produce [example_rank3], and whose
    forward pass fails on an empty input. *)
Definition example_model : model Q :=
  Model 1 4
    (λ input_tensor,
       Inference ((λ name, (name, OutTensor example_rank3)) <$> component_names 1)
                 (bool_decide (input_tensor = [])) "!").

(** A tokenizer: one token per character. *)
Definition example_encode (s : string) : list Z :=
  (λ _, 0%Z) <$> seq 0 (String.length s).

Definition example_tweets : list tweet :=
  [Tweet "so happy" "joy"; Tweet "bad" "sadness"].

(** Three reduced vectors of which the second has another length. *)
Definition example_vectors : list (tensor Q) :=
  [Tensor [2] [1; 0]%Q; Tensor [3] [0; 1; 1]%Q; Tensor [2] [0; 1]%Q].

(** What the analysis found for two emotions in one layer. *)
Definition example_importance : gmap string (gmap string (list nat * list Q)) :=
  {[ "joy" := {[ "final_layer" := ([2; 0], [3; 1]%Q) ]};
     "fear" := {[ "final_layer" := ([1], [-1]%Q) ]} ]}.



(** A model without layers whose final layer norm answers with the tokens
    it was given, one feature per position: [1, n, 1]. *)
Definition echo_model : model Q :=
  Model 0 4
    (λ input_tensor,
       Inference [("final_layer",
                   OutTensor (Tensor [1; length input_tensor; 1]
                                     (inject_Z <$> input_tensor)))]
                 false "!").

(** A capturer with its hooks attached to [echo_model], after one complete
    capture cycle on the token 7: capture is disabled again. *)
Definition example_captured : world Q :=
  ((new_capturer >>> register_hooks 0 >>> start_capture >>>
    run_forward echo_model [7]%Z >>> stop_capture) init_world).2.

(** * Properties *)

(** ** The shape normalizer *)

Section NormalizeFacts.
Context {F : Type} `{Scalar F}.

Lemma normalize_one_rank1 (a : tensor F) :
  ∃ n, shape (normalize_one a).1 = [n].
Proof.
  unfold normalize_one.
  repeat case_match; simpl; eauto.
  unfold rank in *. destruct (shape a) as [|n [|? ?]] eqn:E; simpl in *; try done.
  eauto.
Qed.

Lemma omap_total_lookup {A B} (f : A → option B) (l : list A) :
  (∀ x, x ∈ l → is_Some (f x)) →
  length (omap f l) = length l ∧ ∀ k, omap f l !! k = l !! k ≫= f.
Proof.
  induction l as [|x l IH]; intros Hf; [by split; [|intros []]|].
  destruct (Hf x) as [y Hy]; [left|].
  destruct IH as [Hlen Hk]; [intros; apply Hf; by right|].
  cbn [omap list_omap]. rewrite Hy. split; [cbn; by rewrite Hlen|].
  intros [|k]; cbn; [by rewrite Hy|apply Hk].
Qed.

(** Column [j] of a row-major matrix whose data fill it: entry [i] is the
    element at row [i], column [j]. *)
Lemma column_spec (rows cols j : nat) (d : list F) :
  rows * cols ≤ length d → j < cols →
  length (column rows cols j d) = rows ∧
  ∀ i, i < rows → column rows cols j d !! i = d !! (i * cols + j).
Proof.
  intros Hlen Hj. unfold column.
  destruct (omap_total_lookup (λ i, d !! (i * cols + j)) (seq 0 rows))
    as [Hl Hk].
  { intros i Hi%elem_of_seq. apply lookup_lt_is_Some_2. nia. }
  rewrite length_seq in Hl. split; [done|].
  intros i Hi. rewrite Hk, lookup_seq_lt by done. done.
Qed.

Lemma mean_axis0_spec (s d : nat) (a : tensor F) :
  shape a = [s; d] → wf a →
  ∃ v, mean_axis0 a = Tensor [d] v ∧ length v = d ∧
       ∀ j, j < d →
         ∃ xs, v !! j = Some (np_mean xs) ∧ length xs = s ∧
               ∀ i, i < s → xs !! i = data a !! (i * d + j).
Proof.
  intros E Hwf. unfold wf in Hwf. rewrite E in Hwf. cbn in Hwf.
  unfold mean_axis0, dim. rewrite E. cbn [nth].
  eexists. split; [reflexivity|]. split; [by rewrite length_map, length_seq|].
  intros j Hj. exists (column s d j (data a)).
  rewrite list_lookup_fmap, lookup_seq_lt by done. split; [done|].
  apply column_spec; [lia|done].
Qed.

(** C2: [normalize_one] applies its rules in priority order.  A rank-3
    array whose first two dimensions are 1 is squeezed to its vector; a
    rank-3 array [1, s, d] with leading dimension 1 is averaged over the
    sequence dimension: entry [j] of the result is the mean of the [s]
    elements [a[0, i, j]]; a rank-2 array [s, d] is averaged over its first
    dimension: entry [j] is the mean of the [s] elements [a[i, j]]; a
    rank-1 array is returned as it is, with nothing printed; every
    remaining shape (another rank, or rank 3 with a leading dimension other
    than 1) is flattened completely and the flattening is printed.  The
    result is always a 1-D vector.  Elements are addressed in row-major
    order in data that fill the shape. *)
Theorem normalize_one_rules (a : tensor F) :
  (∀ d, shape a = [1; 1; d] →
     normalize_one a = (Tensor [d] (take d (data a)), [])) ∧
  (∀ s d, shape a = [1; s; d] → s ≠ 1 → wf a →
     ∃ v, normalize_one a = (Tensor [d] v, []) ∧ length v = d ∧
          ∀ j, j < d →
            ∃ xs, v !! j = Some (np_mean xs) ∧ length xs = s ∧
                  ∀ i, i < s → xs !! i = data a !! ((0 * s + i) * d + j)) ∧
  (∀ s d, shape a = [s; d] → wf a →
     ∃ v, normalize_one a = (Tensor [d] v, []) ∧ length v = d ∧
          ∀ j, j < d →
            ∃ xs, v !! j = Some (np_mean xs) ∧ length xs = s ∧
                  ∀ i, i < s → xs !! i = data a !! (i * d + j)) ∧
  (∀ n, shape a = [n] → normalize_one a = (a, [])) ∧
  (rank a ∉ [1; 2; 3] ∨ (rank a = 3 ∧ dim a 0 ≠ 1) →
     normalize_one a =
       (Tensor [size_of (shape a)] (data a), [FlatteningUnusual (shape a)])) ∧
  (∃ n, shape (normalize_one a).1 = [n]).
Proof.
  split_and!.
  - intros d E. unfold normalize_one, rank, dim, index_0_0, dim. by rewrite E.
  - intros s d E Hs Hwf. unfold normalize_one, rank, dim. rewrite E. simpl.
    destruct (Nat.eqb_spec s 1) as [->|_]; [done|]. simpl.
    assert (Hlen : length (data a) = s * d).
    { unfold wf in Hwf. rewrite E in Hwf. cbn in Hwf. lia. }
    destruct (mean_axis0_spec s d (index_0 a)) as (v & Hv & Hl & Hj).
    { unfold index_0, dim. by rewrite E. }
    { unfold wf, index_0, dim. rewrite E. cbn. rewrite length_take. lia. }
    exists v. rewrite Hv. split_and!; [done|done|].
    intros j Hjd. destruct (Hj j Hjd) as (xs & Hx & Hxl & Hxi).
    exists xs. split_and!; [done|done|].
    intros i Hi. rewrite (Hxi i Hi). unfold index_0, dim. rewrite E. cbn.
    apply lookup_take_lt. nia.
  - intros s d E Hwf. unfold normalize_one, rank, dim. rewrite E. simpl.
    destruct (mean_axis0_spec s d a E Hwf) as (v & -> & Hl & Hj).
    by exists v.
  - intros n E. unfold normalize_one, rank, dim. by rewrite E.
  - intros Hr. unfold normalize_one, flatten.
    destruct Hr as [Hr|[Hr Hd]].
    + destruct (Nat.eqb_spec (rank a) 3) as [E|_];
        [rewrite E in Hr; set_solver|]. simpl.
      destruct (Nat.eqb_spec (rank a) 2) as [E|_];
        [rewrite E in Hr; set_solver|].
      destruct (Nat.eqb_spec (rank a) 1) as [E|_];
        [rewrite E in Hr; set_solver|]. done.
    + rewrite Hr. simpl.
      destruct (Nat.eqb_spec (dim a 0) 1) as [E|_]; [done|]. done.
  - apply normalize_one_rank1.
Qed.
End NormalizeFacts.

(** The rank-2 rule at a [2, 3] array with the rows [1 2 3] and [4 5 6]:
    the first entry of the result is the mean of 1 and 4, the first column. *)
Lemma normalize_one_rules_witness :
  ∃ v, @normalize_one Q Q_scalar example_rank2 = (Tensor [3] v, []) ∧
       v !! 0 = Some (@np_mean Q Q_scalar [1; 4]%Q).
Proof.
  destruct (@normalize_one_rules Q Q_scalar example_rank2) as (_ & _ & H2 & _).
  destruct (H2 2 3 eq_refl eq_refl) as (v & Hv & _ & Hj).
  exists v. split; [exact Hv|].
  destruct (Hj 0) as (xs & Hx & Hl & Hi); [lia|].
  rewrite Hx. f_equal. f_equal.
  pose proof (Hi 0 (Nat.lt_0_succ 1)) as H0.
  pose proof (Hi 1 (Nat.lt_succ_diag_r 1)) as H1.
  destruct xs as [|x [|y [|z xs]]]; try discriminate Hl.
  cbn in H0, H1. congruence.
Defined.

(** ** The majority shape *)

Section CounterFacts.
Context {K : Type} `{EqDecision K}.

Lemma cget_counter_incr (k k' : K) c :
  cget k' (counter_incr k c) = if decide (k = k') then S (cget k' c) else cget k' c.
Proof.
  induction c as [|[k0 n0] c IH]; simpl.
  - repeat case_decide; congruence.
  - destruct (decide (k0 = k)) as [->|Hne]; simpl.
    + repeat case_decide; congruence.
    + rewrite IH. repeat case_decide; congruence.
Qed.

Lemma keys_counter_incr (k : K) c :
  (counter_incr k c).*1 = if decide (k ∈ c.*1) then c.*1 else c.*1 ++ [k].
Proof.
  induction c as [|[k0 n0] c IH].
  - simpl. destruct (decide (k ∈ [])) as [Hin|_]; [set_solver|done].
  - cbn [counter_incr fmap list_fmap fst].
    destruct (decide (k0 = k)) as [->|Hne]; cbn [fmap list_fmap fst].
    + destruct (decide (k ∈ k :: c.*1)) as [_|Hn]; [done|set_solver].
    + rewrite IH.
      destruct (decide (k ∈ c.*1)) as [Hin|Hn];
        destruct (decide (k ∈ k0 :: c.*1)) as [Hin'|Hn']; try done; set_solver.
Qed.

Lemma NoDup_counter_incr (k : K) c :
  NoDup c.*1 → NoDup (counter_incr k c).*1.
Proof.
  intros Hnd. rewrite keys_counter_incr. case_decide; [done|].
  apply NoDup_app. split_and!; [done|set_solver|apply NoDup_singleton].
Qed.

Lemma occurrences_snoc (k k' : K) l :
  occurrences k' (l ++ [k]) =
    if decide (k = k') then S (occurrences k' l) else occurrences k' l.
Proof.
  unfold occurrences. rewrite filter_app, length_app.
  rewrite filter_cons, filter_nil. repeat case_decide; simpl; try congruence; lia.
Qed.

Lemma Counter_snoc (l : list K) (k : K) :
  Counter (l ++ [k]) = counter_incr k (Counter l).
Proof. unfold Counter. by rewrite foldl_app. Qed.

Lemma cget_Counter (k : K) (l : list K) : cget k (Counter l) = occurrences k l.
Proof.
  induction l as [|x l IH] using rev_ind; [done|].
  rewrite Counter_snoc, cget_counter_incr, occurrences_snoc, IH. done.
Qed.

Lemma NoDup_Counter (l : list K) : NoDup (Counter l).*1.
Proof.
  induction l as [|x l IH] using rev_ind; [apply NoDup_nil_2|].
  rewrite Counter_snoc. by apply NoDup_counter_incr.
Qed.

Lemma elem_of_cget (k : K) (n : nat) c :
  NoDup c.*1 → (k, n) ∈ c → cget k c = n.
Proof.
  induction c as [|[k0 n0] c IH]; simpl; [set_solver|].
  intros Hnd Hin. apply NoDup_cons in Hnd as [Hk0 Hnd].
  apply elem_of_cons in Hin as [Heq|Hin].
  - injection Heq as -> ->. by rewrite decide_True.
  - destruct (decide (k0 = k)) as [->|Hne]; [|by apply IH].
    exfalso. apply Hk0. apply list_elem_of_fmap. by exists (k, n).
Qed.

Lemma cget_elem_of (k : K) c : cget k c ≠ 0 → (k, cget k c) ∈ c.
Proof.
  induction c as [|[k0 n0] c IH]; simpl; [done|].
  destruct (decide (k0 = k)) as [->|Hne]; [left|right; by apply IH].
Qed.

Lemma max_by_count_foldl (c : list (K * nat)) (b : K * nat) :
  ∃ m, foldl (λ best kv,
                match best with
                | None => Some kv
                | Some b => if b.2 <? kv.2 then Some kv else Some b
                end) (Some b) c = Some m
       ∧ (m = b ∨ m ∈ c) ∧ b.2 ≤ m.2 ∧ ∀ kv, kv ∈ c → kv.2 ≤ m.2.
Proof.
  revert b. induction c as [|kv c IH]; intros b; simpl.
  - exists b. split_and!; [done|by left|lia|set_solver].
  - destruct (Nat.ltb_spec b.2 kv.2) as [Hlt|Hge].
    + destruct (IH kv) as (m & -> & Hm & Hle & Hall). exists m.
      split_and!; [done| |lia|].
      * destruct Hm as [->|Hm]; right; [left|by right].
      * intros kv' [->|Hin]%elem_of_cons; [done|by apply Hall].
    + destruct (IH b) as (m & -> & Hm & Hle & Hall). exists m.
      split_and!; [done| |lia|].
      * destruct Hm as [->|Hm]; [by left|right; by right].
      * intros kv' [->|Hin]%elem_of_cons; [lia|by apply Hall].
Qed.

Lemma max_by_count_spec (c : list (K * nat)) :
  c ≠ [] →
  ∃ m, max_by_count c = Some m ∧ m ∈ c ∧ ∀ kv, kv ∈ c → kv.2 ≤ m.2.
Proof.
  destruct c as [|b c]; [done|]. intros _. unfold max_by_count. simpl.
  destruct (max_by_count_foldl c b) as (m & -> & Hm & Hle & Hall).
  exists m. split_and!; [done| |].
  - destruct Hm as [->|Hm]; [left|by right].
  - intros kv [->|Hin]%elem_of_cons; [done|by apply Hall].
Qed.

(** [most_common(1)] picks an element that occurs, and no element occurs
    more often. *)
Lemma most_common_1_spec (l : list K) :
  l ≠ [] →
  ∃ k, most_common_1 l = Some k ∧ k ∈ l ∧
       ∀ k', occurrences k' l ≤ occurrences k l.
Proof.
  intros Hl.
  assert (Hc : Counter l ≠ []).
  { destruct l as [|x l] using rev_ind; [done|]. rewrite Counter_snoc.
    by destruct (Counter l) as [|[? ?] ?]; simpl; [|case_decide]. }
  destruct (max_by_count_spec _ Hc) as ([k n] & Hmax & Hin & Hall).
  assert (Hn : n = occurrences k l).
  { rewrite <- cget_Counter. symmetry.
    apply elem_of_cget; [apply NoDup_Counter|done]. }
  assert (Hle : ∀ k', occurrences k' l ≤ occurrences k l).
  { intros k'. rewrite <- Hn.
    destruct (decide (occurrences k' l = 0)) as [->|Hnz]; [lia|].
    rewrite <- cget_Counter in Hnz |- *.
    apply (Hall (k', cget k' (Counter l))). by apply cget_elem_of. }
  exists k. unfold most_common_1. rewrite Hmax. split_and!; [done| |done].
  destruct l as [|x l]; [done|].
  specialize (Hle x). unfold occurrences in Hle.
  rewrite filter_cons_True in Hle by done. simpl in Hle.
  destruct (filter (λ y, y = k) (x :: l)) as [|y ?] eqn:E; [simpl in Hle; lia|].
  assert (Hy : y ∈ filter (λ y, y = k) (x :: l)) by (rewrite E; left).
  apply list_elem_of_filter in Hy as [-> Hy]. done.
Qed.
End CounterFacts.

Section StackFacts.
Context {F : Type}.

Lemma np_stack_same (arrays : list (tensor F)) (s : list nat) :
  arrays ≠ [] → (∀ a, a ∈ arrays → shape a = s) →
  np_stack arrays = Ok (data <$> arrays).
Proof.
  destruct arrays as [|a arrays]; [done|]. intros _ Hall. unfold np_stack.
  replace (forallb _ _) with true; [done|]. symmetry.
  apply forallb_forall. intros b Hb%list_elem_of_In.
  apply bool_decide_eq_true. rewrite (Hall a), (Hall b); [done|done|left].
Qed.

Lemma np_stack_differ (arrays : list (tensor F)) (a b : tensor F) :
  a ∈ arrays → b ∈ arrays → shape a ≠ shape b →
  np_stack arrays = Raise ValueError.
Proof.
  intros Ha Hb Hne. destruct arrays as [|a0 arrays]; [done|]. unfold np_stack.
  destruct (forallb _ _) eqn:E; [|done]. exfalso.
  rewrite forallb_forall in E. apply Hne.
  pose proof (E a (proj1 (list_elem_of_In _ _) Ha)) as Ea.
  pose proof (E b (proj1 (list_elem_of_In _ _) Hb)) as Eb.
  apply bool_decide_eq_true in Ea, Eb. congruence.
Qed.

Lemma filter_shape_arrays (s : list nat) (arrays : list (tensor F))
    (labels : list string) :
  length labels = length arrays →
  (filter_shape s arrays labels).*1 = filter (λ a, shape a = s) arrays.
Proof.
  revert labels. induction arrays as [|a arrays IH]; intros [|l labels] Hlen;
    try done. simpl in Hlen. unfold filter_shape in *. simpl.
  rewrite !filter_cons. simpl.
  destruct (decide (shape a = s)); simpl; rewrite IH by lia; done.
Qed.

Lemma occurrences_shape (s : list nat) (arrays : list (tensor F)) :
  occurrences s (shape <$> arrays) = length (filter (λ a, shape a = s) arrays).
Proof.
  unfold occurrences. induction arrays as [|a arrays IH]; [done|].
  rewrite fmap_cons, !filter_cons. destruct (decide (shape a = s)); simpl; lia.
Qed.

(** C3: when the reduced arrays of a layer do not all have the same shape,
    the fallback of [load_activations] selects the most frequent shape
    (no shape occurs more often), keeps exactly the arrays of that shape in
    their original order, each with its label, and the number discarded is
    N - M, for N arrays of which M have the majority shape.  The selection
    is a function of the sequence of shapes. *)
Theorem stack_layer_majority (layer : string)
    (all_activations : list (tensor F)) (all_labels : list string) :
  length all_labels = length all_activations →
  (∃ a b, a ∈ all_activations ∧ b ∈ all_activations ∧ shape a ≠ shape b) →
  ∃ most_common_shape,
    let shapes := shape <$> all_activations in
    let kept := filter (λ a, shape a = most_common_shape) all_activations in
    let M := occurrences most_common_shape shapes in
    most_common_1 shapes = Some most_common_shape ∧
    (∀ s, occurrences s shapes ≤ M) ∧
    0 < M ∧
    stack_layer layer all_activations all_labels =
      Ok (Stacked (width_of kept) (data <$> kept)
                  (filter_shape most_common_shape all_activations all_labels).*2,
          [ErrorCreatingArray layer shapes; UsingOnlyShape most_common_shape;
           LoadedAfterFiltering layer M]) ∧
    length kept = M ∧
    length all_activations - length kept = length all_activations - M.
Proof.
  intros Hlen (a & b & Ha & Hb & Hne).
  assert (Hnil : shape <$> all_activations ≠ []).
  { destruct all_activations; [set_solver|done]. }
  destruct (most_common_1_spec _ Hnil) as (mcs & Hmc & Hin & Hmax).
  exists mcs. cbv zeta.
  assert (Hkept : length (filter (λ a, shape a = mcs) all_activations)
                  = occurrences mcs (shape <$> all_activations)).
  { by rewrite occurrences_shape. }
  assert (Hpos : 0 < occurrences mcs (shape <$> all_activations)).
  { rewrite occurrences_shape.
    apply list_elem_of_fmap in Hin as (a0 & Hs & Ha0).
    assert (Hf : a0 ∈ filter (λ a, shape a = mcs) all_activations)
      by (apply list_elem_of_filter; done).
    destruct (filter _ all_activations); [set_solver|simpl; lia]. }
  split_and!; try done; [|lia].
  unfold stack_layer. rewrite (np_stack_differ _ a b) by done.
  rewrite Hmc. rewrite filter_shape_arrays by done.
  rewrite (np_stack_same _ mcs).
  - rewrite Hkept. done.
  - intros E. rewrite E in Hkept. simpl in Hkept. lia.
  - by intros a0 [? ?]%list_elem_of_filter.
Qed.
End StackFacts.

(** The fallback on three vectors of lengths 2, 3 and 2. *)
Lemma stack_layer_majority_witness :
  ∃ most_common_shape,
    most_common_1 (shape <$> example_vectors) = Some most_common_shape ∧
    length (filter (λ a, shape a = most_common_shape) example_vectors)
    = occurrences most_common_shape (shape <$> example_vectors).
Proof.
  destruct (stack_layer_majority "final_layer" example_vectors
              ["joy"; "sad"; "joy"] eq_refl) as (mcs & Hmc & _ & _ & _ & Hlen & _).
  - exists (Tensor [2] [1; 0]%Q), (Tensor [3] [0; 1; 1]%Q).
    split_and!; [apply list_elem_of_here
                |apply list_elem_of_further, list_elem_of_here|discriminate].
  - exists mcs. split; [exact Hmc|exact Hlen].
Defined.

(** On these vectors the majority shape is [2] and the second vector is
    dropped, with its label. *)
Lemma stack_layer_example :
  stack_layer "final_layer" example_vectors ["joy"; "sad"; "joy"]
  = Ok (Stacked 2 [[1; 0]; [0; 1]]%Q ["joy"; "joy"],
        [ErrorCreatingArray "final_layer" [[2]; [3]; [2]]; UsingOnlyShape [2];
         LoadedAfterFiltering "final_layer" 2]).
Proof. vm_compute. reflexivity. Qed.

(** ** The importance ranking *)

Section IndexFacts.
Context {A : Type}.






End IndexFacts.

Section ImportanceFacts.
Context {F : Type} `{Scalar F} `{Argsort F}.






End ImportanceFacts.

(** ** The insertion argsort keeps the promise of [np.argsort] *)

Section InsertionSort.
Context {F : Type} `{Scalar F}.
Context (Hswo : strict_weak_order F).





End InsertionSort.

(** ** The rational instance *)

Lemma Q_lt_true (x y : Q) : Q_lt x y = true ↔ (x < y)%Q.
Proof.
  unfold Q_lt. rewrite Qlt_alt. destruct (x ?= y)%Q; split; congruence.
Qed.

Lemma Q_lt_false (x y : Q) : Q_lt x y = false ↔ (y <= x)%Q.
Proof.
  split.
  - intros E. apply Qnot_lt_le. intros Hlt%Q_lt_true. congruence.
  - intros Hle. destruct (Q_lt x y) eqn:E; [|done].
    apply Q_lt_true in E. by apply Qle_not_lt in Hle.
Qed.

Lemma Q_strict_weak_order : @strict_weak_order Q Q_scalar.
Proof.
  split; simpl.
  - intros x y Hxy%Q_lt_true. apply Q_lt_false. by apply Qlt_le_weak.
  - intros x y z Hxy%Q_lt_false Hyz%Q_lt_false. apply Q_lt_false.
    by apply Qle_trans with y.
Qed.





(** ** The capturer *)

Lemma flat_map_chunks_length {A} (g : nat → list A) (d b : nat) :
  (∀ k, k < b → length (g k) = d) → length (flat_map g (seq 0 b)) = b * d.
Proof.
  induction b as [|b IH]; intros Hg; [done|].
  rewrite seq_S, flat_map_app, length_app, IH by (intros; apply Hg; lia).
  simpl. rewrite length_app, Hg by lia. simpl. lia.
Qed.

Lemma flat_map_chunks_lookup {A} (g : nat → list A) (d b k j : nat) :
  (∀ k, k < b → length (g k) = d) → k < b → j < d →
  flat_map g (seq 0 b) !! (k * d + j) = g k !! j.
Proof.
  induction b as [|b IH]; intros Hg Hk Hj; [lia|].
  rewrite seq_S, flat_map_app. simpl. rewrite app_nil_r.
  destruct (decide (k < b)) as [Hlt|Hge].
  - rewrite lookup_app_l; [apply IH; [intros; apply Hg; lia|done|done]|].
    rewrite (flat_map_chunks_length g d) by (intros; apply Hg; lia). nia.
  - assert (k = b) as -> by lia. rewrite lookup_app_r;
      rewrite (flat_map_chunks_length g d) by (intros; apply Hg; lia); [|lia].
    f_equal. lia.
Qed.

Section CapturerFacts.
Context {F : Type}.

Lemma select_last_spec (output : tensor F) (b s d : nat) :
  shape output = [b; s; d] → 0 < s → wf output →
  ∃ last, select_last output = Ok last ∧ shape last = [b; d] ∧
          length (data last) = b * d ∧
          ∀ k j, k < b → j < d →
            data last !! (k * d + j) = data output !! ((k * s + (s - 1)) * d + j).
Proof.
  intros Hsh Hs Hwf. unfold select_last, dim. rewrite Hsh. simpl.
  destruct (Nat.eqb_spec s 0) as [->|_]; [lia|].
  unfold wf in Hwf. rewrite Hsh in Hwf. simpl in Hwf.
  assert (Hchunk : ∀ k, k < b →
            length (take d (drop ((k * s + (s - 1)) * d) (data output))) = d).
  { intros k Hk. rewrite length_take, length_drop, Hwf.
    assert (k * s + (s - 1) + 1 ≤ b * s) by nia.
    assert ((k * s + (s - 1)) * d + d ≤ b * (s * (d * 1))) by nia.
    lia. }
  eexists. split; [reflexivity|]. simpl. split_and!; [done| |].
  - by apply flat_map_chunks_length.
  - intros k j Hk Hj.
    rewrite (flat_map_chunks_lookup _ d) by done.
    rewrite lookup_take_lt by done. by rewrite lookup_drop.
Qed.

(** C4, as the code has it: while capture is enabled, the hook looks at
    the output, or at the first element of a tuple; a rank-3 tensor [batch,
    sequence, feature] with a non-empty sequence is stored reduced to its
    last sequence position, for every batch row; a tensor of any other rank
    is stored as it is, not flattened; nothing is printed, and in these
    cases the hook does not raise. *)
Theorem capture_hook_extraction (name : string) (outputs : hook_output F)
    (output : tensor F) (w : world F) :
  capture_enabled w = true →
  primary outputs = Some output →
  (∀ b s d, shape output = [b; s; d] → 0 < s → wf output →
     ∃ last, capture_hook name outputs w = (Ok tt, set_activation name last w) ∧
             shape last = [b; d] ∧ length (data last) = b * d ∧
             ∀ k j, k < b → j < d →
               data last !! (k * d + j)
               = data output !! ((k * s + (s - 1)) * d + j)) ∧
  (rank output ≠ 3 →
     capture_hook name outputs w = (Ok tt, set_activation name output w)) ∧
  (∀ value, activations (set_activation name value w) !! name = Some value ∧
            stdout (set_activation name value w) = stdout w).
Proof.
  intros Hen Hprim.
  assert (Hout : (match outputs with
                  | OutTuple [] => Raise IndexError
                  | OutTuple (t :: _) => Ok t
                  | OutTensor t => Ok t
                  end) = Ok output).
  { destruct outputs as [t|[|t ts]]; simpl in Hprim; congruence. }
  split_and!.
  - intros b s d Hsh Hs Hwf.
    destruct (select_last_spec output b s d Hsh Hs Hwf) as (last & Hl & Hrest).
    exists last. split; [|done].
    unfold capture_hook. rewrite Hen, Hout. unfold rank. rewrite Hsh. simpl.
    by rewrite Hl.
  - intros Hr. unfold capture_hook. rewrite Hen, Hout.
    by destruct (Nat.eqb_spec (rank output) 3).
  - intros value. split; [apply lookup_insert_eq|done].
Qed.

(** A rank-3 output with an empty sequence dimension makes the hook raise. *)
Lemma capture_hook_empty_sequence (name : string) (w : world F) (b d : nat)
    (values : list F) :
  capture_enabled w = true →
  capture_hook name (OutTensor (Tensor [b; 0; d] values)) w = (Raise IndexError, w).
Proof. intros Hen. unfold capture_hook. by rewrite Hen. Qed.

(** C6, as the code has it: [start_capture] while already capturing does
    not raise; it leaves capture enabled and replaces the stored
    activations by an empty mapping, leaving everything else as it was. *)
Theorem start_capture_while_capturing (w : world F) :
  capture_enabled w = true →
  ∃ w', start_capture w = (Ok tt, w') ∧
        capture_enabled w' = true ∧ activations w' = ∅ ∧
        model_hooks w' = model_hooks w ∧ hooks w' = hooks w ∧
        stdout w' = stdout w.
Proof. intros _. eexists. split; [reflexivity|]. done. Qed.
End CapturerFacts.

(** The hook on a tuple whose first element is a rank-3 tensor [1, 2, 3]:
    the last of the two positions is stored. *)
Lemma capture_hook_extraction_witness :
  ∃ last, capture_hook "layer_0_attn" (OutTuple [example_rank3; example_rank2])
            (World ∅ 0 [] ∅ true 0 [])
          = (Ok tt, set_activation "layer_0_attn" last (World ∅ 0 [] ∅ true 0 [])) ∧
          shape last = [1; 3] ∧ length (data last) = 1 * 3.
Proof.
  destruct (capture_hook_extraction "layer_0_attn"
              (OutTuple [example_rank3; example_rank2]) example_rank3
              (World ∅ 0 [] ∅ true 0 []) eq_refl eq_refl) as [Hlast _].
  destruct (Hlast 1 2 3 eq_refl) as (last & Hhook & Hsh & Hlen & _);
    [lia|reflexivity|].
  exists last. split_and!; [exact Hhook|exact Hsh|exact Hlen].
Defined.

(** C4 as stated fails: a rank-2 output of shape [2, 3] is stored with its
    shape [2, 3], not flattened to 6 elements, and nothing is printed. *)
Lemma capture_hook_does_not_flatten :
  ∃ w', capture_hook "layer_0_attn" (OutTensor example_rank2)
          (World ∅ 0 [] ∅ true 0 []) = (Ok tt, w') ∧
        activations w' !! "layer_0_attn" = Some example_rank2 ∧
        shape example_rank2 = [2; 3] ∧
        example_rank2 ≠ flatten example_rank2 ∧
        stdout w' = [].
Proof.
  eexists. split; [reflexivity|].
  split_and!; [apply lookup_insert_eq|done|discriminate|done].
Qed.

(** [start_capture] in a world that captures and holds an activation. *)
Lemma start_capture_while_capturing_witness :
  ∃ w', start_capture (set_activation "x" example_rank2 (World ∅ 0 [] ∅ true 0 []))
        = (Ok tt, w') ∧
        capture_enabled w' = true ∧ activations w' = ∅ ∧
        model_hooks w' = ∅ ∧ hooks w' = [] ∧ stdout w' = [].
Proof.
  apply (start_capture_while_capturing
           (set_activation "x" example_rank2 (World ∅ 0 [] ∅ true 0 []))).
  reflexivity.
Defined.

(** C6 as stated fails: two calls of [start_capture] with a hook call in
    between and no [get_activations] return normally, and what the hook
    stored is gone. *)
Lemma start_capture_twice_no_error :
  (start_capture >>> capture_hook "x" (OutTensor example_rank2) >>> start_capture)
    init_world
  = (Ok tt, World ∅ 0 [] ∅ true 0 []).
Proof. reflexivity. Qed.

(** ** The capture toggle *)

Section ToggleFacts.
Context {F : Type}.

Lemma capture_hook_disabled (name : string) (outputs : hook_output F)
    (w : world F) :
  capture_enabled w = false → capture_hook name outputs w = (Ok tt, w).
Proof. intros Hdis. unfold capture_hook. by rewrite Hdis. Qed.

Lemma for_each_noop {A} (f : A → M F unit) (l : list A) (w : world F) :
  (∀ x, f x w = (Ok tt, w)) → for_each f l w = (Ok tt, w).
Proof.
  intros Hf. induction l as [|x l IH]; [done|].
  simpl. unfold bind. by rewrite Hf.
Qed.

Lemma fire_disabled (ev : string * hook_output F) (w : world F) :
  capture_enabled w = false → fire ev w = (Ok tt, w).
Proof.
  intros Hdis. unfold fire. apply for_each_noop.
  intros hn. by apply capture_hook_disabled.
Qed.

Lemma run_forward_disabled (m : model F) (input_tensor : list Z) (w : world F) :
  capture_enabled w = false → (run_forward m input_tensor w).2 = w.
Proof.
  intros Hdis. unfold run_forward, bind.
  rewrite for_each_noop by (intros; by apply fire_disabled).
  by destruct (fails _).
Qed.

Lemma store_activations_empty (label tweet_id : string)
    (activation_data : gmap string (list (sample F))) :
  store_activations label tweet_id ∅ activation_data = activation_data.
Proof. unfold store_activations. by rewrite map_fold_empty. Qed.
End ToggleFacts.

(** ** The crop to the context window *)



(** With a window of zero the slice [[-0:]] is the whole sequence. *)
Lemma crop_zero_window (input_ids : list Z) : crop 0 input_ids = input_ids.
Proof.
  unfold crop, slice_from. simpl.
  destruct (Z.ltb_spec 0 (Z.of_nat (length input_ids))); [|done].
  replace (Z.to_nat _) with 0 by lia. done.
Qed.

(** The run hands the cropped tokens to the forward pass. *)
Lemma process_tweet_forward_input {F} (encode : string → list Z) (m : model F)
    (i : nat) (tweet_data : tweet) (run : capture_run F) (w : world F) :
  ∃ k, process_tweet encode m i tweet_data run w
       = (let* generated := run_forward m (crop (block_size m)
                                             (encode (text tweet_data))) in
          k generated) (start_capture w).2.
Proof. eexists. unfold process_tweet, bind at 1. simpl. reflexivity. Qed.

(** ** Teardown *)

Section TeardownFacts.
Context {F : Type}.

Lemma same_hooks_refl (w : world F) : same_hooks w w.
Proof. done. Qed.

Lemma same_hooks_trans (w1 w2 w3 : world F) :
  same_hooks w1 w2 → same_hooks w2 w3 → same_hooks w1 w3.
Proof. unfold same_hooks. intros (?&?&?) (?&?&?). split_and!; congruence. Qed.

Lemma keeps_ret {A} (a : A) : keeps_hooks (ret (F:=F) a).
Proof. intros w. apply same_hooks_refl. Qed.

Lemma keeps_raise {A} (e : exn) : keeps_hooks (raise (F:=F) (A:=A) e).
Proof. intros w. apply same_hooks_refl. Qed.

Lemma keeps_bind {A B} (c : M F A) (k : A → M F B) :
  keeps_hooks c → (∀ a, keeps_hooks (k a)) → keeps_hooks (bind c k).
Proof.
  intros Hc Hk w. unfold bind. specialize (Hc w).
  destruct (c w) as [[a|e] w']; simpl in *; [|done].
  eapply same_hooks_trans; [done|apply Hk].
Qed.

Lemma keeps_for_each {A} (f : A → M F unit) (l : list A) :
  (∀ x, keeps_hooks (f x)) → keeps_hooks (for_each f l).
Proof.
  intros Hf. induction l as [|x l IH]; simpl; [apply keeps_ret|].
  apply keeps_bind; [apply Hf|done].
Qed.

Lemma keeps_capture_hook (name : string) (outputs : hook_output F) :
  keeps_hooks (capture_hook name outputs).
Proof.
  intros w. unfold capture_hook. repeat case_match; simpl; done.
Qed.

Lemma keeps_fire (ev : string * hook_output F) : keeps_hooks (fire ev).
Proof.
  intros w. unfold fire. apply keeps_for_each.
  intros hn. apply keeps_capture_hook.
Qed.

Lemma keeps_run_forward (m : model F) (input_tensor : list Z) :
  keeps_hooks (run_forward m input_tensor).
Proof.
  unfold run_forward. apply keeps_bind.
  - apply keeps_for_each, keeps_fire.
  - intros _. destruct (fails _); [apply keeps_raise|apply keeps_ret].
Qed.

Lemma keeps_process_tweet (encode : string → list Z) (m : model F) (i : nat)
    (tweet_data : tweet) (run : capture_run F) :
  keeps_hooks (process_tweet encode m i tweet_data run).
Proof.
  unfold process_tweet.
  apply keeps_bind; [done|intros _].
  apply keeps_bind; [apply keeps_run_forward|intros generated].
  apply keeps_bind; [done|intros _].
  apply keeps_bind; [done|intros acts].
  apply keeps_bind; [|intros _; apply keeps_ret].
  destruct (_ =? _); [done|apply keeps_ret].
Qed.

Lemma keeps_process_tweets (encode : string → list Z) (m : model F)
    (tweets : list tweet) (i : nat) (run : capture_run F) :
  keeps_hooks (process_tweets encode m i tweets run).
Proof.
  revert i run. induction tweets as [|tweet_data rest IH]; intros i run; simpl.
  - apply keeps_ret.
  - apply keeps_bind; [apply keeps_process_tweet|intros run'; apply IH].
Qed.

Lemma register_all (names : list string) (w : world F) :
  ∃ w', for_each register_hook names w = (Ok tt, w') ∧
        removals w' = removals w ∧
        (dom (model_hooks w) ⊆ list_to_set (C:=gset nat) (hooks w) →
         dom (model_hooks w') ⊆ list_to_set (C:=gset nat) (hooks w')).
Proof.
  revert w. induction names as [|name names IH]; intros w; simpl.
  - exists w. done.
  - unfold bind. simpl.
    destruct (IH (World (<[next_handle w := name]> (model_hooks w))
                        (S (next_handle w)) (hooks w ++ [next_handle w])
                        (activations w) (capture_enabled w)
                        (removals w) (stdout w)))
      as (w' & -> & Hr & Hdom).
    exists w'. split_and!; [done|done|].
    intros Hsub. apply Hdom. simpl.
    rewrite dom_insert_L, list_to_set_app_L. set_solver.
Qed.

Lemma dom_delete_all (mh : gmap nat string) (l : list nat) :
  dom (foldl (λ mh h, delete h mh) mh l) = dom mh ∖ list_to_set (C:=gset nat) l.
Proof.
  revert mh. induction l as [|h l IH]; intros mh; simpl; [set_solver|].
  rewrite IH, dom_delete_L. set_solver.
Qed.

Lemma capture_run_outcome (encode : string → list Z) (m : model F)
    (tweets : list tweet) (w0 : world F) :
  model_hooks w0 = ∅ →
  ∃ r w, capture_detailed_activations encode m tweets w0 = (r, w) ∧
         model_hooks w = ∅ ∧ hooks w = [] ∧ removals w = S (removals w0).
Proof.
  intros Hempty. unfold capture_detailed_activations.
  unfold bind at 1. simpl. unfold bind at 1. unfold register_hooks.
  destruct (register_all (component_names (n_layer m))
              (World (model_hooks w0) (next_handle w0) [] ∅ false
                     (removals w0) (stdout w0)))
    as (w1 & -> & Hr1 & Hdom1).
  unfold finally.
  pose proof (keeps_process_tweets encode m tweets 0
                (CaptureRun ∅ [] [] [] [] []) w1) as (Hmh & Hh & Hr).
  destruct (process_tweets _ _ _ _ _ w1) as [r w2]. unfold remove_hooks.
  simpl in *. eexists _, _. split; [reflexivity|]. simpl.
  split_and!; [|done|lia].
  apply dom_empty_inv_L. rewrite dom_delete_all, Hmh, Hh.
  assert (dom (model_hooks w1) ⊆ list_to_set (C:=gset nat) (hooks w1));
    [|set_solver].
  apply Hdom1. rewrite Hempty. set_solver.
Qed.

(** C5: from a model with no hook attached, every execution of the capture
    run, whether the loop over the tweets returns or raises (a failing
    forward pass, a hook that raises), calls [remove_hooks] once before it
    returns or raises, and afterwards no hook is attached to the model and
    the capturer holds no handle. *)
Theorem capture_run_teardown (encode : string → list Z) (m : model F)
    (tweets : list tweet) (w0 : world F) :
  model_hooks w0 = ∅ →
  let w := (capture_detailed_activations encode m tweets w0).2 in
  model_hooks w = ∅ ∧ hooks w = [] ∧ removals w = S (removals w0).
Proof.
  intros Hempty. cbv zeta.
  destruct (capture_run_outcome encode m tweets w0 Hempty)
    as (r & w & -> & Hrest).
  exact Hrest.
Qed.
End TeardownFacts.

(** The second tweet is empty, the forward pass fails on it, the run
    raises, and no hook is left. *)
Lemma capture_run_teardown_witness :
  (capture_detailed_activations example_encode example_model
     [Tweet "so happy" "joy"; Tweet "" "sadness"] init_world).1
  = Raise ModelError ∧
  model_hooks (capture_detailed_activations example_encode example_model
                 [Tweet "so happy" "joy"; Tweet "" "sadness"] init_world).2 = ∅.
Proof.
  split; [vm_compute; reflexivity|].
  apply (capture_run_teardown example_encode example_model
           [Tweet "so happy" "joy"; Tweet "" "sadness"] init_world eq_refl).
Defined.

(** ** The samples of a capture run *)

Section RunFacts.
Context {F : Type}.

Lemma store_activations_lookup (label tweet_id name : string)
    (acts : gmap string (tensor F))
    (activation_data : gmap string (list (sample F))) :
  store_activations label tweet_id acts activation_data !! name =
    match acts !! name with
    | Some activation =>
        Some (default [] (activation_data !! name)
              ++ [Sample activation label tweet_id])
    | None => activation_data !! name
    end.
Proof.
  unfold store_activations. revert name.
  apply (map_fold_weak_ind
           (λ r (m : gmap string (tensor F)), ∀ name,
              r !! name = match m !! name with
                          | Some activation =>
                              Some (default [] (activation_data !! name)
                                    ++ [Sample activation label tweet_id])
                          | None => activation_data !! name
                          end)).
  - intros name. by rewrite lookup_empty.
  - intros k x m r Hk IH name. destruct (decide (k = name)) as [->|Hne].
    + rewrite !lookup_insert_eq. rewrite IH, Hk. done.
    + rewrite !lookup_insert_ne by done. apply IH.
Qed.

Lemma process_tweet_Ok (encode : string → list Z) (m : model F) (i : nat)
    (tweet_data : tweet) (run run' : capture_run F) (w w' : world F) :
  process_tweet encode m i tweet_data run w = (Ok run', w') →
  ∃ acts, activation_data run' =
            store_activations (label tweet_data) (pretty i) acts
                              (activation_data run).
Proof.
  unfold process_tweet, bind, start_capture, stop_capture, get_activations, ret.
  destruct (run_forward _ _ _) as [[generated|e] w1]; [|done].
  destruct (_ =? _); simpl; intros [= <- _]; simpl; eauto.
Qed.

Lemma well_labelled_mono (tweets : list tweet) (n n' : nat)
    (l : list (sample F)) :
  n ≤ n' → well_labelled tweets n l → well_labelled tweets n' l.
Proof.
  intros Hn [Hnd Hl]. split; [done|].
  intros s Hs. destruct (Hl s Hs) as (i & tw & ? & ? & ? & ?).
  exists i, tw. split_and!; [lia|done..].
Qed.

Lemma well_labelled_snoc (tweets : list tweet) (i : nat) (tweet_data : tweet)
    (l : list (sample F)) (activation : tensor F) :
  tweets !! i = Some tweet_data → well_labelled tweets i l →
  well_labelled tweets (S i)
    (l ++ [Sample activation (label tweet_data) (pretty i)]).
Proof.
  intros Hi [Hnd Hl]. split.
  - rewrite fmap_app. simpl. apply NoDup_app. split_and!.
    + done.
    + intros id Hid Hnew. apply list_elem_of_singleton in Hnew as ->.
      apply list_elem_of_fmap in Hid as (s & Hs & Hin).
      destruct (Hl s Hin) as (j & tw & Hj & _ & Hid & _).
      rewrite Hid in Hs. apply (inj pretty) in Hs. lia.
    + apply NoDup_singleton.
  - intros s [Hs|Hs]%elem_of_app.
    + destruct (Hl s Hs) as (j & tw & ? & ? & ? & ?).
      exists j, tw. split_and!; [lia|done..].
    + apply list_elem_of_singleton in Hs as ->.
      exists i, tweet_data. split_and!; [lia|done..].
Qed.

Lemma process_tweets_inv (encode : string → list Z) (m : model F)
    (tweets rest : list tweet) (i : nat) (run run' : capture_run F)
    (w w' : world F) :
  (∀ k tweet_data, rest !! k = Some tweet_data →
                   tweets !! (i + k) = Some tweet_data) →
  (∀ name l, activation_data run !! name = Some l → well_labelled tweets i l) →
  process_tweets encode m i rest run w = (Ok run', w') →
  ∀ name l, activation_data run' !! name = Some l →
            well_labelled tweets (i + length rest) l.
Proof.
  revert i run w. induction rest as [|tweet_data rest IH];
    intros i run w Hrest Hinv; simpl.
  - intros [= <- _] name l Hl. rewrite Nat.add_0_r. by apply (Hinv name).
  - unfold bind.
    destruct (process_tweet _ _ _ _ _ w) as [[run1|e] w1] eqn:E; [|done].
    intros Hrun name l Hl.
    replace (i + S (length rest)) with (S i + length rest) by lia.
    eapply (IH (S i) run1 w1); [| |exact Hrun|exact Hl].
    + intros k tw Hk. replace (S i + k) with (i + S k) by lia.
      by apply Hrest.
    + apply process_tweet_Ok in E as [acts Hacts].
      intros name1 l1. rewrite Hacts, store_activations_lookup.
      assert (Hi : tweets !! i = Some tweet_data).
      { rewrite <- (Nat.add_0_r i). by apply Hrest. }
      destruct (acts !! name1) as [activation|].
      * intros [= <-]. apply well_labelled_snoc; [done|].
        destruct (activation_data run !! name1) as [l0|] eqn:E0; simpl.
        -- by apply (Hinv name1).
        -- split; [apply NoDup_nil_2|]. intros s Hs. by apply elem_of_nil in Hs.
      * intros Hl1. apply well_labelled_mono with i; [lia|].
        by apply (Hinv name1).
Qed.

Lemma capture_run_samples (encode : string → list Z) (m : model F)
    (tweets : list tweet) (w0 w : world F) (run : capture_run F) :
  capture_detailed_activations encode m tweets w0 = (Ok run, w) →
  ∀ name l, activation_data run !! name = Some l →
            well_labelled tweets (length tweets) l.
Proof.
  unfold capture_detailed_activations.
  unfold bind at 1. simpl. unfold bind at 1. unfold register_hooks.
  destruct (register_all (F:=F) (component_names (n_layer m))
              (World (model_hooks w0) (next_handle w0) [] ∅ false
                     (removals w0) (stdout w0)))
    as (w1 & -> & _ & _).
  unfold finally.
  destruct (process_tweets _ _ _ _ _ w1) as [r w2] eqn:E.
  unfold remove_hooks. simpl. intros [= -> _].
  intros name l Hl.
  eapply (process_tweets_inv encode m tweets tweets 0 _ run w1 w2);
    [done| |exact E|exact Hl].
  intros name0 l0. simpl. by rewrite lookup_empty.
Qed.

(** C9: in every capture run that the processing of a sequence of tweets
    produces, the sample list of every component has at most one entry per
    example id; every sample carries the id and the label of one of the
    tweets; and two samples, of any components, with the same example id
    have the same label. *)
Theorem capture_run_invariant (encode : string → list Z) (m : model F)
    (tweets : list tweet) (w0 w : world F) (run : capture_run F) :
  capture_detailed_activations encode m tweets w0 = (Ok run, w) →
  (∀ name l, activation_data run !! name = Some l →
     NoDup (tweet_id <$> l)) ∧
  (∀ name l s, activation_data run !! name = Some l → s ∈ l →
     ∃ i tweet_data, tweets !! i = Some tweet_data ∧
                     tweet_id s = pretty i ∧
                     sample_label s = label tweet_data) ∧
  (∀ name1 name2 l1 l2 s1 s2,
     activation_data run !! name1 = Some l1 →
     activation_data run !! name2 = Some l2 →
     s1 ∈ l1 → s2 ∈ l2 → tweet_id s1 = tweet_id s2 →
     sample_label s1 = sample_label s2).
Proof.
  intros Hrun.
  pose proof (capture_run_samples encode m tweets w0 w run Hrun) as Hwl.
  split_and!.
  - intros name l Hl. by destruct (Hwl name l Hl).
  - intros name l s Hl Hs. destruct (Hwl name l Hl) as [_ Hall].
    destruct (Hall s Hs) as (i & tw & _ & ? & ? & ?). eauto.
  - intros n1 n2 l1 l2 s1 s2 Hl1 Hl2 Hs1 Hs2 Hid.
    destruct (Hwl n1 l1 Hl1) as [_ H1]. destruct (Hwl n2 l2 Hl2) as [_ H2].
    destruct (H1 s1 Hs1) as (i & tw1 & _ & Hi & Hid1 & ->).
    destruct (H2 s2 Hs2) as (j & tw2 & _ & Hj & Hid2 & ->).
    rewrite Hid1, Hid2 in Hid. apply (inj pretty) in Hid as ->. congruence.
Qed.
End RunFacts.

(** A run of the example model on two tweets returns, and its sample
    lists have no example id twice. *)
Lemma capture_run_invariant_witness :
  ∃ run w,
    capture_detailed_activations example_encode example_model example_tweets
      init_world = (Ok run, w) ∧
    ∀ name l, activation_data run !! name = Some l → NoDup (tweet_id <$> l).
Proof.
  destruct (capture_detailed_activations example_encode example_model
              example_tweets init_world) as [r w] eqn:E.
  destruct r as [run|e]; [|vm_compute in E; discriminate].
  exists run, w. split; [reflexivity|].
  exact (proj1 (capture_run_invariant example_encode example_model
                  example_tweets init_world w run E)).
Defined.

(** ** Which layers the analysis reads *)

Lemma inner_keys_in_insert {V} (L : gset string) (m : gmap string (gmap string V))
    (e layer : string) (v : V) :
  layer ∈ L → inner_keys_in L m →
  inner_keys_in L (<[e := <[layer := v]> (default ∅ (m !! e))]> m).
Proof.
  intros Hlayer Hm e' inner. destruct (decide (e = e')) as [->|Hne].
  - rewrite lookup_insert_eq. intros [= <-]. rewrite dom_insert.
    destruct (m !! e') as [old|] eqn:E; simpl.
    + specialize (Hm e' old E). set_solver.
    + set_solver.
  - rewrite lookup_insert_ne by done. apply Hm.
Qed.

Section LoadFacts.
Context {F : Type} `{Scalar F} `{Argsort F}.

Lemma collect_from_beyond (i : nat) (labels : list string)
    (layer_data : list (item F)) :
  length labels ≤ i → collect_from i labels layer_data = ([], []).
Proof.
  revert i. induction layer_data as [|it rest IH]; intros i Hi; [done|].
  simpl. rewrite IH by lia. by destruct (Nat.leb_spec (length labels) i); [|lia].
Qed.

Lemma collect_from_take (i : nat) (labels : list string)
    (layer_data : list (item F)) :
  collect_from i labels layer_data
  = collect_from i labels (take (length labels - i) layer_data).
Proof.
  revert i. induction layer_data as [|it rest IH]; intros i.
  - by rewrite take_nil.
  - destruct (decide (length labels ≤ i)) as [Hge|Hlt].
    + by rewrite !collect_from_beyond.
    + replace (length labels - i) with (S (length labels - S i)) by lia.
      simpl. by rewrite <- IH.
Qed.

Lemma record_by_emotion_keys (L : gset string) (layer : string)
    (kept : list (tensor F * string))
    (m : gmap string (gmap string (list (tensor F)))) :
  layer ∈ L → inner_keys_in L m → inner_keys_in L (record_by_emotion layer kept m).
Proof.
  intros Hlayer. unfold record_by_emotion. revert m.
  induction kept as [|vl kept IH]; intros m Hm; simpl; [done|].
  apply IH. by apply inner_keys_in_insert.
Qed.

Lemma importance_loop_keys (L : gset string) (layer : string) (width : nat)
    (activations_array : list (list F)) (all_labels emotions : list string)
    (st st' : analysis F) :
  layer ∈ L → only_layers L st →
  importance_loop layer width activations_array all_labels emotions st = Ok st' →
  only_layers L st'.
Proof.
  intros Hlayer. revert st. induction emotions as [|emotion rest IH];
    intros st Hst; simpl.
  - by intros [= <-].
  - destruct (importance _ _ _ _) as [[neurons scores|]|e]; simpl; [| |done].
    + apply IH. destruct Hst as (H1 & H2 & H3). split_and!; simpl; [done|done|].
      by apply inner_keys_in_insert.
    + by apply IH.
Qed.

Lemma process_layer_keys (L : gset string) (labels : list string)
    (torch_load : string → list (item F)) (st st' : analysis F)
    (layer : string) :
  layer ∈ L → only_layers L st →
  process_layer labels torch_load st layer = Ok st' → only_layers L st'.
Proof.
  intros Hlayer (H1 & H2 & H3). unfold process_layer.
  destruct (collect_from _ _ _) as [kept logs].
  pose proof (record_by_emotion_keys L layer kept _ Hlayer H2) as H2'.
  destruct (kept.*1) as [|a rest] eqn:E.
  - intros [= <-]. by split_and!.
  - destruct (stack_layer _ _ _) as [[sl logs2]|e]; simpl; [|done].
    destruct sl as [width activations_array stored_labels|].
    + apply importance_loop_keys; [done|]. split_and!; simpl; [|done|done].
      rewrite dom_insert. set_solver.
    + intros [= <-]. by split_and!.
Qed.

Lemma process_layers_keys (L : gset string) (labels : list string)
    (torch_load : string → list (item F)) (layers : list string)
    (st st' : analysis F) :
  (∀ layer, layer ∈ layers → layer ∈ L) → only_layers L st →
  process_layers labels torch_load layers st = Ok st' → only_layers L st'.
Proof.
  revert st. induction layers as [|layer rest IH]; intros st HL Hst; simpl.
  - by intros [= <-].
  - destruct (process_layer _ _ _ _) as [st1|e] eqn:E; simpl; [|done].
    apply IH; [intros; apply HL; by right|].
    eapply process_layer_keys; [apply HL; left|done|done].
Qed.

Lemma process_layers_ext (labels : list string)
    (torch_load torch_load' : string → list (item F)) (layers : list string)
    (st : analysis F) :
  (∀ layer, layer ∈ layers →
     torch_load' (layer +:+ "_activations.pt")
     = torch_load (layer +:+ "_activations.pt")) →
  process_layers labels torch_load' layers st
  = process_layers labels torch_load layers st.
Proof.
  revert st. induction layers as [|layer rest IH]; intros st Hext; [done|].
  simpl.
  assert (E : process_layer labels torch_load' st layer
              = process_layer labels torch_load st layer).
  { unfold process_layer. by rewrite Hext by left. }
  rewrite E. destruct (process_layer labels torch_load st layer); simpl; [|done].
  apply IH. intros; apply Hext; by right.
Qed.

Lemma key_layers_spec (listdir : list string) (layer : string) :
  layer ∈ key_layers_of (activation_files_of listdir) ↔
  layer ∈ ["final_layer"; "layer_11"; "layer_10"; "layer_9"] ∧
  (layer +:+ "_activations.pt") ∈ listdir.
Proof.
  unfold key_layers_of, activation_files_of.
  rewrite list_elem_of_filter, list_elem_of_filter. split.
  - intros [[_ Hin] Hfix]. done.
  - intros [Hfix Hin]. split; [|done]. split; [|done].
    repeat (apply elem_of_cons in Hfix as [->|Hfix]; [reflexivity|]).
    by apply elem_of_nil in Hfix.
Qed.

(** C10: [load_activations] analyses exactly the layers of the fixed list
    ["final_layer", "layer_11", "layer_10", "layer_9"] whose activation
    file is in the run directory: the dictionaries it returns mention no
    other layer, its result does not depend on the content of any other
    file (the samples of every other component are ignored), and the items
    of a layer list at an index at or beyond the number of metadata labels
    are skipped. *)
Theorem load_activations_key_layers (listdir : list string)
    (torch_load : string → list (item F)) (labels : list string) :
  let key_layers := key_layers_of (activation_files_of listdir) in
  (∀ layer, layer ∈ key_layers ↔
     layer ∈ ["final_layer"; "layer_11"; "layer_10"; "layer_9"] ∧
     (layer +:+ "_activations.pt") ∈ listdir) ∧
  (∀ st returned, load_activations listdir torch_load labels = Ok (st, returned) →
     returned = key_layers ∧ only_layers (list_to_set key_layers) st) ∧
  (∀ torch_load' : string → list (item F),
     (∀ layer, layer ∈ key_layers →
        torch_load' (layer +:+ "_activations.pt")
        = torch_load (layer +:+ "_activations.pt")) →
     load_activations listdir torch_load' labels
     = load_activations listdir torch_load labels) ∧
  (∀ layer_data : list (item F),
     collect_from 0 labels layer_data
     = collect_from 0 labels (take (length labels) layer_data)).
Proof.
  cbv zeta. split_and!.
  - apply key_layers_spec.
  - intros st returned. unfold load_activations.
    destruct (process_layers _ _ _ _) as [st1|e] eqn:E; simpl; [|done].
    intros [= <- <-]. split; [done|].
    eapply process_layers_keys; [|  |exact E].
    + intros layer Hl. by apply elem_of_list_to_set.
    + split_and!; simpl; [set_solver| |]; intros e inner;
        by rewrite lookup_empty.
  - intros torch_load' Hext. unfold load_activations.
    by rewrite (process_layers_ext labels torch_load torch_load').
  - intros layer_data. rewrite (collect_from_take 0).
    by rewrite Nat.sub_0_r.
Qed.
End LoadFacts.

(** After the fallback the emotion loop still indexes the filtered array
    with the positions of the unfiltered labels: with a vector dropped and
    two emotions present, [load_activations] raises IndexError. *)
Lemma load_activations_after_filtering_raises :
  @load_activations Q Q_scalar (@argsort_insertion Q Q_scalar)
    ["final_layer_activations.pt"; "gen_metadata.pt"]
    (λ _, (λ a, ItemDict (Some a)) <$> example_vectors)
    ["joy"; "sad"; "joy"]
  = Raise IndexError.
Proof. vm_compute. reflexivity. Qed.

(** * Further properties of the analysis *)

Section NormalizeMore.
Context {F : Type} `{Scalar F}.

(** X1: [normalize_one] keeps arrays well formed: when the data of the
    input fill its shape, the data of the result fill the shape of the
    result. *)
Theorem normalize_one_wf (a : tensor F) :
  wf a → wf (normalize_one a).1.
Proof.
  unfold wf, normalize_one, rank, dim. intros Hwf.
  destruct (shape a) as [|n1 [|n2 [|n3 [|n4 sh]]]] eqn:E; simpl in *.
  - unfold flatten. rewrite E. simpl. lia.
  - rewrite E. done.
  - unfold mean_axis0, dim. rewrite E. simpl.
    rewrite length_map, length_seq. lia.
  - destruct (Nat.eqb_spec n1 1) as [->|Hn1]; simpl.
    + destruct (Nat.eqb_spec n2 1) as [->|Hn2]; simpl.
      * unfold index_0_0, dim. rewrite E. simpl. rewrite length_take. lia.
      * unfold mean_axis0, index_0, dim. rewrite E. simpl.
        rewrite length_map, length_seq. lia.
    + unfold flatten. rewrite E. simpl. lia.
  - destruct (Nat.eqb_spec n1 1) as [->|Hn1]; simpl;
      unfold flatten; rewrite E; simpl; lia.
Qed.

(** X2: [normalize_one] is idempotent: reducing a reduced array returns it
    unchanged and prints nothing. *)
Theorem normalize_one_idempotent (a : tensor F) :
  normalize_one (normalize_one a).1 = ((normalize_one a).1, []).
Proof.
  destruct (normalize_one_rank1 a) as [n Hn].
  generalize dependent (normalize_one a).1. intros b Hb.
  unfold normalize_one, rank, dim. by rewrite Hb.
Qed.

(** X3: [normalize_one] is shape-stable: two arrays of the same shape are
    reduced to vectors of the same shape, and the same message, if any, is
    printed for both. *)
Theorem normalize_one_shape_stable (a b : tensor F) :
  shape a = shape b →
  shape (normalize_one a).1 = shape (normalize_one b).1 ∧
  (normalize_one a).2 = (normalize_one b).2.
Proof.
  intros Hs. unfold normalize_one, rank, dim. rewrite Hs.
  repeat case_match; simpl;
    unfold index_0_0, mean_axis0, index_0, flatten, dim; simpl;
    rewrite ?Hs; done.
Qed.
End NormalizeMore.

(** [normalize_one] on the well-formed rank-3 example. *)
Lemma normalize_one_wf_witness :
  wf (@normalize_one Q Q_scalar example_rank3).1.
Proof. apply (@normalize_one_wf Q Q_scalar example_rank3). reflexivity. Defined.

(** Two arrays of shape [2, 3] with different data. *)
Lemma normalize_one_shape_stable_witness :
  shape (@normalize_one Q Q_scalar example_rank2).1
  = shape (@normalize_one Q Q_scalar (Tensor [2; 3] [0; 0; 0; 0; 0; 0]%Q)).1.
Proof.
  apply (proj1 (@normalize_one_shape_stable Q Q_scalar example_rank2
                  (Tensor [2; 3] [0; 0; 0; 0; 0; 0]%Q) eq_refl)).
Defined.

Lemma fancy_index_raise {A} (d : list A) (idx : list nat) (i : nat) :
  i ∈ idx → length d ≤ i → fancy_index d idx = Raise IndexError.
Proof.
  intros Hi Hlen. induction idx as [|j idx IH]; [by apply elem_of_nil in Hi|].
  simpl. destruct (d !! j) as [x|] eqn:E; [|done].
  apply elem_of_cons in Hi as [->|Hi].
  - apply lookup_lt_Some in E. lia.
  - by rewrite IH.
Qed.

Lemma fancy_index_outcome {A} (d : list A) (idx : list nat) :
  (∃ xs, fancy_index d idx = Ok xs) ∨ fancy_index d idx = Raise IndexError.
Proof.
  induction idx as [|j idx IH]; simpl; [left; eauto|].
  destruct (d !! j); [|by right].
  destruct IH as [[xs ->]| ->]; simpl; [left; eauto|by right].
Qed.

Lemma elem_of_where_label (test : string → bool) (labels : list string)
    (i : nat) :
  i ∈ where_label test labels ↔ ∃ l, labels !! i = Some l ∧ test l = true.
Proof.
  unfold where_label. rewrite list_elem_of_omap. split.
  - intros ([j l] & Hin & Hf). apply elem_of_lookup_imap in Hin
      as (k & l' & [= -> ->] & Hk). simpl in Hf.
    destruct (test l') eqn:E; [|done]. injection Hf as ->. eauto.
  - intros (l & Hl & Ht). exists (i, l). split.
    + apply elem_of_lookup_imap. eauto.
    + simpl. by rewrite Ht.
Qed.

Lemma np_unique_elem_of (l : list string) (x : string) :
  x ∈ np_unique l ↔ x ∈ l.
Proof.
  unfold np_unique. rewrite merge_sort_Permutation. apply elem_of_remove_dups.
Qed.

Lemma filter_length_lt {A} (P : A → Prop) `{∀ x, Decision (P x)}
    (l : list A) (x : A) :
  x ∈ l → ¬ P x → length (filter P l) < length l.
Proof.
  intros Hx Hn. induction l as [|y l IH]; [by apply elem_of_nil in Hx|].
  rewrite filter_cons. pose proof (length_filter P l) as Hle.
  apply elem_of_cons in Hx as [->|Hx].
  - rewrite decide_False by done. simpl. lia.
  - specialize (IH Hx). destruct (decide (P y)); simpl; lia.
Qed.

Section StackMore.
Context {F : Type}.

(** X4: when the reduced arrays of a layer all have the same shape, every
    one of them is stacked, in order, beside all the labels, and the count
    loaded is printed: nothing is filtered. *)
Theorem stack_layer_homogeneous (layer : string)
    (all_activations : list (tensor F)) (all_labels : list string)
    (s : list nat) :
  all_activations ≠ [] →
  (∀ a, a ∈ all_activations → shape a = s) →
  stack_layer layer all_activations all_labels
  = Ok (Stacked (width_of all_activations) (data <$> all_activations) all_labels,
        [LayerLoaded layer (length all_activations)]).
Proof.
  intros Hne Hall. unfold stack_layer. by rewrite (np_stack_same _ s).
Qed.

Lemma stack_layer_fallback (layer : string)
    (all_activations : list (tensor F)) (all_labels : list string)
    (a b : tensor F) :
  length all_labels = length all_activations →
  a ∈ all_activations → b ∈ all_activations → shape a ≠ shape b →
  ∃ width activations_array stored_labels logs,
    stack_layer layer all_activations all_labels
    = Ok (Stacked width activations_array stored_labels, logs) ∧
    length activations_array < length all_activations.
Proof.
  intros Hlen Ha Hb Hne.
  assert (Hnil : shape <$> all_activations ≠ []).
  { destruct all_activations; [by apply elem_of_nil in Ha|done]. }
  destruct (most_common_1_spec _ Hnil) as (mcs & Hmc & Hin & _).
  unfold stack_layer. rewrite (np_stack_differ _ a b) by done.
  rewrite Hmc, filter_shape_arrays by done.
  apply list_elem_of_fmap in Hin as (a0 & Hs & Ha0).
  rewrite (np_stack_same _ mcs).
  - eexists _, _, _, _. split; [reflexivity|]. rewrite length_fmap.
    destruct (decide (shape a = mcs)) as [Hsa|Hsa].
    + apply (filter_length_lt _ _ b); [done|congruence].
    + by apply (filter_length_lt _ _ a).
  - intros E.
    assert (Hf : a0 ∈ filter (λ a, shape a = mcs) all_activations)
      by (apply list_elem_of_filter; done).
    rewrite E in Hf. by apply elem_of_nil in Hf.
  - by intros a1 [? ?]%list_elem_of_filter.
Qed.
End StackMore.

(** Two vectors of length 2. *)
Lemma stack_layer_homogeneous_witness :
  stack_layer "final_layer" [Tensor [2] [1; 0]%Q; Tensor [2] [0; 1]%Q]
              ["joy"; "sad"]
  = Ok (Stacked 2 [[1; 0]; [0; 1]]%Q ["joy"; "sad"],
        [LayerLoaded "final_layer" 2]).
Proof.
  apply (stack_layer_homogeneous "final_layer"
           [Tensor [2] [1; 0]%Q; Tensor [2] [0; 1]%Q] ["joy"; "sad"] [2]).
  - discriminate.
  - intros a Ha. repeat (apply elem_of_cons in Ha as [->|Ha]; [reflexivity|]).
    by apply elem_of_nil in Ha.
Defined.

Section FallbackCrash.
Context {F : Type} `{Scalar F} `{Argsort F}.

Lemma importance_short_array_raises (width : nat)
    (activations_array : list (list F)) (all_labels : list string)
    (emotion other : string) :
  length activations_array < length all_labels →
  emotion ∈ all_labels → other ∈ all_labels → other ≠ emotion →
  importance width activations_array all_labels emotion = Raise IndexError.
Proof.
  intros Hshort He Ho Hne. unfold importance.
  set (emo := where_label (λ l, bool_decide (l = emotion)) all_labels).
  set (oth := where_label (λ l, bool_decide (l ≠ emotion)) all_labels).
  assert (Hemo : 0 < length emo).
  { apply list_elem_of_lookup in He as [i Hi].
    assert (i ∈ emo) as Hin.
    { apply elem_of_where_label. exists emotion. by rewrite bool_decide_eq_true. }
    destruct emo; [by apply elem_of_nil in Hin|simpl; lia]. }
  assert (Hoth : 0 < length oth).
  { apply list_elem_of_lookup in Ho as [i Hi].
    assert (i ∈ oth) as Hin.
    { apply elem_of_where_label. exists other. by rewrite bool_decide_eq_true. }
    destruct oth; [by apply elem_of_nil in Hin|simpl; lia]. }
  destruct (Nat.ltb_spec 0 (length emo)) as [_|?]; [|lia].
  destruct (Nat.ltb_spec 0 (length oth)) as [_|?]; [|lia]. simpl.
  destruct (lookup_lt_is_Some_2 all_labels (length all_labels - 1)) as [l Hl];
    [lia|].
  destruct (decide (l = emotion)) as [->|Hl'].
  - rewrite (fancy_index_raise _ emo (length all_labels - 1)); [done| |lia].
    apply elem_of_where_label. exists emotion. by rewrite bool_decide_eq_true.
  - destruct (fancy_index_outcome activations_array emo) as [[xs ->]| ->];
      [|done]. simpl.
    rewrite (fancy_index_raise _ oth (length all_labels - 1)); [done| |lia].
    apply elem_of_where_label. exists l. by rewrite bool_decide_eq_true.
Qed.

(** X5: when the arrays collected for a layer do not all have the same
    shape and their labels are not all the same, the pass over that layer
    raises IndexError: after the fallback has dropped arrays, the emotion
    loop still indexes the filtered array with the positions of the
    unfiltered labels. *)
Theorem process_layer_fallback_raises (labels : list string)
    (torch_load : string → list (item F)) (st : analysis F) (layer : string)
    (a b : tensor F) (l1 l2 : string) :
  let kept := (collect_from 0 labels (torch_load (layer +:+ "_activations.pt"))).1 in
  a ∈ kept.*1 → b ∈ kept.*1 → shape a ≠ shape b →
  l1 ∈ kept.*2 → l2 ∈ kept.*2 → l1 ≠ l2 →
  process_layer labels torch_load st layer = Raise IndexError.
Proof.
  cbv zeta. unfold process_layer.
  destruct (collect_from _ _ _) as [kept logs]. simpl.
  intros Ha Hb Hsh Hl1 Hl2 Hne.
  destruct (kept.*1) as [|a0 rest] eqn:E; [by apply elem_of_nil in Ha|].
  rewrite <- E in *.
  destruct (stack_layer_fallback layer kept.*1 kept.*2 a b)
    as (width & arr & stored & logs2 & -> & Hshort); [|done..|].
  { by rewrite !length_fmap. }
  simpl.
  destruct (np_unique kept.*2) as [|emotion emotions] eqn:Eu.
  - assert (l1 ∈ np_unique kept.*2) as Hin by by apply np_unique_elem_of.
    rewrite Eu in Hin. by apply elem_of_nil in Hin.
  - assert (emotion ∈ kept.*2) as He.
    { apply np_unique_elem_of. rewrite Eu. left. }
    simpl. rewrite !length_fmap in Hshort.
    destruct (decide (l1 = emotion)) as [->|Hl1e].
    + rewrite (importance_short_array_raises _ _ _ emotion l2);
        [done|by rewrite length_fmap|done|done|done].
    + rewrite (importance_short_array_raises _ _ _ emotion l1);
        [done|by rewrite length_fmap|done|done|done].
Qed.
End FallbackCrash.

(** The pass over a layer file holding the three example vectors. *)
Lemma process_layer_fallback_raises_witness :
  @process_layer Q Q_scalar (@argsort_insertion Q Q_scalar)
    ["joy"; "sad"; "joy"]
    (λ _, (λ a, ItemDict (Some a)) <$> example_vectors)
    (Analysis ∅ ∅ ∅ []) "final_layer"
  = Raise IndexError.
Proof.
  apply (@process_layer_fallback_raises Q Q_scalar (@argsort_insertion Q Q_scalar)
           ["joy"; "sad"; "joy"]
           (λ _, (λ a, ItemDict (Some a)) <$> example_vectors)
           (Analysis ∅ ∅ ∅ []) "final_layer"
           (Tensor [2] [1; 0]%Q) (Tensor [3] [0; 1; 1]%Q) "joy" "sad").
  - vm_compute. apply list_elem_of_here.
  - vm_compute. apply list_elem_of_further, list_elem_of_here.
  - discriminate.
  - vm_compute. apply list_elem_of_here.
  - vm_compute. apply list_elem_of_further, list_elem_of_here.
  - discriminate.
Defined.

(** * Further properties of the capture *)

Section HookMore.
Context {F : Type}.

Lemma capture_hook_extract (name : string) (outputs : hook_output F)
    (w : world F) :
  capture_hook name outputs w =
    if capture_enabled w then
      match extract outputs with
      | Ok value => (Ok tt, set_activation name value w)
      | Raise e => (Raise e, w)
      end
    else (Ok tt, w).
Proof.
  unfold capture_hook, extract. destruct (capture_enabled w); [|done].
  destruct outputs as [t|[|t ts]]; try done;
    destruct (rank t =? 3); try done; by destruct (select_last t).
Qed.

(** X6: within one cycle the last observation of a component wins and the
    other components are untouched: two successive hook calls for the same
    component leave exactly the state the second call alone would have
    left, and a hook call never changes what is stored for another
    component. *)
Theorem capture_hook_last_write (name : string) (o1 o2 : hook_output F)
    (w w1 w2 : world F) :
  capture_hook name o1 w = (Ok tt, w1) →
  capture_hook name o2 w1 = (Ok tt, w2) →
  capture_hook name o2 w = (Ok tt, w2) ∧
  ∀ other, other ≠ name → activations w1 !! other = activations w !! other.
Proof.
  rewrite !capture_hook_extract.
  destruct (capture_enabled w) eqn:Hen.
  - destruct (extract o1) as [v1|e1]; [|done]. intros [= <-]. simpl.
    rewrite Hen. destruct (extract o2) as [v2|e2]; [|done]. intros [= <-].
    split.
    + unfold set_activation. simpl. by rewrite insert_insert_eq.
    + intros other Hne. simpl. by rewrite lookup_insert_ne.
  - intros [= <-]. rewrite Hen. intros [= <-]. done.
Qed.
End HookMore.

(** Two observations of one component in an enabled world. *)
Lemma capture_hook_last_write_witness :
  ∃ w2, capture_hook "x" (OutTensor example_rank3) (World ∅ 0 [] ∅ true 0 [])
        = (Ok tt, w2).
Proof.
  eexists.
  apply (proj1 (capture_hook_last_write "x" (OutTensor example_rank2)
                  (OutTensor example_rank3) (World ∅ 0 [] ∅ true 0 [])
                  (set_activation "x" example_rank2 (World ∅ 0 [] ∅ true 0 []))
                  _ eq_refl eq_refl)).
Defined.

Section CollectedMore.
Context {F : Type}.

Lemma capture_hook_dom (name : string) (outputs : hook_output F) (w : world F) :
  dom (activations (capture_hook name outputs w).2)
  ⊆ dom (activations w) ∪ {[name]}.
Proof.
  rewrite capture_hook_extract. destruct (capture_enabled w); [|set_solver].
  destruct (extract outputs); simpl; [|set_solver].
  rewrite dom_insert. set_solver.
Qed.

Lemma for_each_hooks_dom (site : string) (outputs : hook_output F)
    (l : list (nat * string)) (w : world F) :
  (∀ hn, hn ∈ l → hn.2 = site) →
  dom (activations (for_each (λ hn : nat * string, capture_hook hn.2 outputs) l w).2)
  ⊆ dom (activations w) ∪ (if l is [] then ∅ else {[site]}).
Proof.
  revert w. induction l as [|hn l IH]; intros w Hl.
  - simpl. apply union_subseteq_l.
  - cbn [for_each]. unfold bind.
    pose proof (capture_hook_dom hn.2 outputs w) as Hd.
    destruct (capture_hook hn.2 outputs w) as [[[]|e] w1]; cbn [snd] in *;
      rewrite (Hl hn) in Hd by left; [|exact Hd].
    specialize (IH w1 (λ x Hx, Hl x (list_elem_of_further _ _ _ Hx))).
    intros x Hx. apply IH in Hx. apply elem_of_union in Hx as [Hx|Hx].
    + by apply Hd.
    + apply elem_of_union_r. destruct l; [by apply elem_of_empty in Hx|done].
Qed.

Lemma fire_dom (ev : string * hook_output F) (w : world F) (name : string) :
  name ∈ dom (activations (fire ev w).2) →
  name ∈ dom (activations w) ∨ (name = ev.1 ∧ registered w name).
Proof.
  unfold fire.
  set (l := filter (λ hn : nat * string, hn.2 = ev.1) (map_to_list (model_hooks w))).
  intros Hin.
  pose proof (for_each_hooks_dom ev.1 ev.2 l w) as Hd.
  assert (Hl : ∀ hn, hn ∈ l → hn.2 = ev.1).
  { intros hn Hhn. by apply list_elem_of_filter in Hhn as [? _]. }
  specialize (Hd Hl). apply Hd in Hin.
  apply elem_of_union in Hin as [Hin|Hin]; [by left|]. right.
  destruct l as [|[h n] l'] eqn:El; [set_solver|].
  apply elem_of_singleton in Hin as ->. split; [done|].
  assert ((h, n) ∈ l) as Hhn by (rewrite El; left).
  apply list_elem_of_filter in Hhn as [Hn Hm]. simpl in Hn. subst n.
  exists h. by apply elem_of_map_to_list in Hm.
Qed.

Lemma fire_all_dom (evs : list (string * hook_output F)) (w : world F)
    (name : string) :
  name ∈ dom (activations (for_each fire evs w).2) →
  name ∈ dom (activations w) ∨ (name ∈ evs.*1 ∧ registered w name).
Proof.
  revert w. induction evs as [|ev evs IH]; intros w; simpl; [by left|].
  unfold bind. pose proof (keeps_fire ev w) as (Hmh & _).
  pose proof (fire_dom ev w name) as Hf.
  destruct (fire ev w) as [[[]|e] w1]; simpl in *.
  - intros Hin. destruct (IH w1 Hin) as [Hd|[He Hr]].
    + destruct (Hf Hd) as [?|[-> ?]]; [by left|right]. split; [left|done].
    + right. split; [by right|]. unfold registered in *. by rewrite <- Hmh.
  - intros Hin. destruct (Hf Hin) as [?|[-> ?]]; [by left|right].
    split; [left|done].
Qed.

(** X7: after one inference with capture enabled, the collected mapping
    has an entry only for components whose site executed during that
    inference and that have a hook attached, whether the inference returns
    or raises. *)
Theorem collected_only_fired (m : model F) (input_tensor : list Z)
    (w : world F) (name : string) :
  name ∈ dom (activations ((start_capture >>> run_forward m input_tensor) w).2) →
  name ∈ (fired (forward m input_tensor)).*1 ∧ registered w name.
Proof.
  unfold bind at 1. simpl. unfold run_forward, bind.
  set (w1 := World _ _ _ _ _ _ _).
  pose proof (fire_all_dom (fired (forward m input_tensor)) w1 name) as Hf.
  destruct (for_each fire _ w1) as [[[]|e] w2]; simpl in *.
  - destruct (fails _); simpl; intros Hin;
      (destruct (Hf Hin) as [Hd|?]; [set_solver|done]).
  - intros Hin. destruct (Hf Hin) as [Hd|?]; [set_solver|done].
Qed.
End CollectedMore.

(** An inference of the example model with all its hooks registered. *)
Lemma collected_only_fired_witness :
  "final_layer" ∈ (fired (forward example_model [0; 0]%Z)).*1 ∧
  registered ((new_capturer >>> register_hooks 1) (@init_world Q)).2 "final_layer".
Proof.
  apply (collected_only_fired example_model [0; 0]%Z
           ((new_capturer >>> register_hooks 1) (@init_world Q)).2 "final_layer").
  apply elem_of_dom. eexists. vm_compute. reflexivity.
Defined.

Section RegisterMore.
Context {F : Type}.

Lemma register_all_exact (names : list string) (w : world F) :
  ∃ w', for_each register_hook names w = (Ok tt, w') ∧
        hooks w' = hooks w ++ seq (next_handle w) (length names) ∧
        next_handle w' = next_handle w + length names ∧
        activations w' = activations w ∧
        capture_enabled w' = capture_enabled w ∧
        (∀ h, model_hooks w' !! h =
                if decide (next_handle w ≤ h < next_handle w + length names)
                then names !! (h - next_handle w)
                else model_hooks w !! h).
Proof.
  revert w. induction names as [|name names IH]; intros w.
  - exists w. simpl. split_and!.
    + done.
    + by rewrite app_nil_r.
    + lia.
    + done.
    + done.
    + intros h. case_decide; [lia|done].
  - cbn [for_each]. unfold bind. simpl.
    destruct (IH (World (<[next_handle w := name]> (model_hooks w))
                        (S (next_handle w)) (hooks w ++ [next_handle w])
                        (activations w) (capture_enabled w)
                        (removals w) (stdout w)))
      as (w' & -> & Hh & Hn & Ha & Hc & Hm). simpl in *.
    exists w'. split_and!.
    + done.
    + rewrite Hh, <- app_assoc. done.
    + lia.
    + done.
    + done.
    + intros h. rewrite Hm. clear Hm IH.
      destruct (decide (S (next_handle w) ≤ h
                        < S (next_handle w + length names))) as [Hin|Hout].
      * rewrite decide_True by lia.
        replace (h - next_handle w) with (S (h - S (next_handle w))) by lia.
        done.
      * destruct (decide (h = next_handle w)) as [->|Hne].
        -- rewrite decide_True by lia.
           rewrite lookup_insert_eq, Nat.sub_diag. done.
        -- rewrite decide_False by lia.
           rewrite lookup_insert_ne by done. done.
Qed.

Lemma lookup_delete_all (mh : gmap nat string) (l : list nat) (h : nat) :
  foldl (λ mh h, delete h mh) mh l !! h
  = if decide (h ∈ l) then None else mh !! h.
Proof.
  revert mh. induction l as [|k l IH]; intros mh; cbn [foldl].
  - destruct (decide (h ∈ [])) as [Hin|_]; [|done].
    by apply not_elem_of_nil in Hin.
  - rewrite IH.
    destruct (decide (h ∈ l)) as [Hin|Hnin];
      destruct (decide (h ∈ k :: l)) as [Hin'|Hnin']; try done.
    + exfalso. apply Hnin'. by right.
    + apply elem_of_cons in Hin' as [->|?]; [|done].
      apply lookup_delete_eq.
    + apply lookup_delete_ne. intros ->. apply Hnin'. left.
Qed.

Lemma component_names_length (n : nat) :
  length (component_names n) = 7 * n + 2.
Proof.
  unfold component_names. simpl. rewrite length_app.
  rewrite (flat_map_chunks_length layer_components 7) by done. simpl. lia.
Qed.

(** X8: [register_hooks] on a new capturer attaches exactly 7 * n_layer + 2
    hooks, one per component name in the order of the source, under
    consecutive fresh handles that are recorded in [self.hooks]; the hooks
    that were attached before stay as they were, and capture stays
    disabled. *)
Theorem register_hooks_exact (n : nat) (w0 : world F) :
  ∃ w, (new_capturer >>> register_hooks n) w0 = (Ok tt, w) ∧
       hooks w = seq (next_handle w0) (7 * n + 2) ∧
       capture_enabled w = false ∧
       (∀ k name, component_names n !! k = Some name →
                  model_hooks w !! (next_handle w0 + k) = Some name) ∧
       (∀ h, h < next_handle w0 → model_hooks w !! h = model_hooks w0 !! h).
Proof.
  unfold bind, new_capturer, register_hooks.
  pose proof (component_names_length n) as Hlen.
  destruct (register_all_exact (component_names n)
              (World (model_hooks w0) (next_handle w0) [] ∅ false
                     (removals w0) (stdout w0)))
    as (w & -> & Hh & Hn & Ha & Hc & Hm).
  cbn [hooks next_handle activations capture_enabled model_hooks] in *.
  rewrite app_nil_l in Hh. rewrite Hlen in *.
  exists w. split_and!.
  - done.
  - done.
  - done.
  - intros k name Hk. rewrite Hm.
    apply lookup_lt_Some in Hk as Hlt. rewrite Hlen in Hlt.
    rewrite decide_True by lia.
    by replace (next_handle w0 + k - next_handle w0) with k by lia.
  - intros h Hlt. rewrite Hm. by rewrite decide_False by lia.
Qed.

(** X9: a capture run leaves the hooks of the model exactly as it found
    them: whatever hooks were attached before (under handles below the next
    free one) are still attached afterwards and no other is, whether the
    run returns or raises. *)
Theorem capture_run_restores_hooks (encode : string → list Z) (m : model F)
    (tweets : list tweet) (w0 : world F) :
  (∀ h, next_handle w0 ≤ h → model_hooks w0 !! h = None) →
  model_hooks (capture_detailed_activations encode m tweets w0).2
  = model_hooks w0.
Proof.
  intros Hfresh. unfold capture_detailed_activations.
  unfold bind at 1. unfold new_capturer. unfold bind at 1.
  unfold register_hooks.
  destruct (register_all_exact (component_names (n_layer m))
              (World (model_hooks w0) (next_handle w0) [] ∅ false
                     (removals w0) (stdout w0)))
    as (w1 & -> & Hh & Hn & Ha & Hc & Hm).
  cbn [hooks next_handle activations capture_enabled model_hooks] in *.
  rewrite app_nil_l in Hh.
  unfold finally.
  pose proof (keeps_process_tweets encode m tweets 0
                (CaptureRun ∅ [] [] [] [] []) w1) as (Hmh & Hhk & _).
  destruct (process_tweets _ _ _ _ _ w1) as [r w2]. unfold remove_hooks.
  cbn [snd model_hooks] in *. apply map_eq. intros h.
  rewrite lookup_delete_all, Hmh, Hhk, Hh.
  destruct (decide (h ∈ seq (next_handle w0)
                            (length (component_names (n_layer m)))))
    as [Hin|Hnin].
  - apply elem_of_seq in Hin. symmetry. apply Hfresh. lia.
  - rewrite elem_of_seq in Hnin. rewrite Hm. by rewrite decide_False by lia.
Qed.
End RegisterMore.

(** A run on a model that already carries a foreign hook under handle 0. *)
Lemma capture_run_restores_hooks_witness :
  model_hooks (capture_detailed_activations example_encode example_model
                 example_tweets
                 (World {[0 := "other"]} 1 [] ∅ false 0 [])).2
  = {[0 := "other"]}.
Proof.
  refine (capture_run_restores_hooks example_encode example_model
            example_tweets (World {[0 := "other"]} 1 [] ∅ false 0 []) _).
  intros h Hh. simpl in *. apply lookup_singleton_ne. lia.
Defined.

(** ** The loop over the tweets *)

Section LoopMore.
Context {F : Type}.

(** One pass of the loop: it raises what the inference raises, and else
    appends one entry to each list. *)
Lemma process_tweet_cases (encode : string → list Z) (m : model F) (i : nat)
    (tweet_data : tweet) (run : capture_run F) (w : world F) :
  match run_forward m (crop (block_size m) (encode (text tweet_data)))
                    (start_capture w).2 with
  | (Ok generated, w1) =>
      ∃ w', process_tweet encode m i tweet_data run w =
              (Ok (CaptureRun
                     (store_activations (label tweet_data) (pretty i)
                                        (activations w1) (activation_data run))
                     (all_tweet_ids run ++ [pretty i])
                     (all_tweets run ++ [text tweet_data])
                     (all_labels run ++ [label tweet_data])
                     (all_generated run ++ [generated])
                     (all_token_lengths run
                        ++ [length (encode (text tweet_data))])), w')
  | (Raise e, w1) => process_tweet encode m i tweet_data run w = (Raise e, w1)
  end.
Proof.
  unfold process_tweet, bind, start_capture, stop_capture, get_activations, ret.
  cbn [snd].
  destruct (run_forward _ _ _) as [[generated|e] w1]; [|done].
  destruct (_ =? _); cbn; eauto.
Qed.

Lemma process_tweets_metadata (encode : string → list Z) (m : model F)
    (rest : list tweet) (i : nat) (run run' : capture_run F) (w w' : world F) :
  process_tweets encode m i rest run w = (Ok run', w') →
  all_tweet_ids run' = all_tweet_ids run ++ (pretty <$> seq i (length rest)) ∧
  all_tweets run' = all_tweets run ++ (text <$> rest) ∧
  all_labels run' = all_labels run ++ (label <$> rest) ∧
  all_token_lengths run'
  = all_token_lengths run ++ ((λ t, length (encode (text t))) <$> rest) ∧
  length (all_generated run') = length (all_generated run) + length rest.
Proof.
  revert i run w. induction rest as [|tweet_data rest IH]; intros i run w.
  - cbn. intros [= <- _]. rewrite !app_nil_r. split_and!; [done..|lia].
  - cbn [process_tweets]. unfold bind.
    pose proof (process_tweet_cases encode m i tweet_data run w) as Hc.
    destruct (run_forward _ _ _) as [[generated|e] w1].
    + destruct Hc as [w2 ->]. intros Hrest.
      apply IH in Hrest as (Hi & Ht & Hl & Hk & Hg). cbn in *.
      rewrite Hi, Ht, Hl, Hk, Hg, <- !app_assoc, length_app. cbn.
      split_and!; [done..|lia].
    + rewrite Hc. done.
Qed.

Lemma capture_run_steps (encode : string → list Z) (m : model F)
    (tweets : list tweet) (w0 : world F) :
  ∃ w1, (new_capturer >>> register_hooks (n_layer m)) w0 = (Ok tt, w1) ∧
        (∀ name, registered w1 name →
                 registered w0 name ∨ name ∈ component_names (n_layer m)) ∧
        capture_detailed_activations encode m tweets w0
        = ((process_tweets encode m 0 tweets (CaptureRun ∅ [] [] [] [] []) w1).1,
           (remove_hooks
              (process_tweets encode m 0 tweets
                              (CaptureRun ∅ [] [] [] [] []) w1).2).2).
Proof.
  unfold capture_detailed_activations, bind, new_capturer, register_hooks.
  destruct (register_all_exact (F:=F) (component_names (n_layer m))
              (World (model_hooks w0) (next_handle w0) [] ∅ false
                     (removals w0) (stdout w0)))
    as (w1 & -> & _ & _ & _ & _ & Hm).
  exists w1. split; [done|]. split.
  - intros name [h Hh]. rewrite Hm in Hh. cbn [model_hooks] in Hh.
    case_decide; [right; by eapply list_elem_of_lookup_2|left; by exists h].
  - unfold finally. by destruct (process_tweets _ _ _ _ _ w1) as [r w2].
Qed.

(** X10: the metadata of a run that returns is parallel to the tweets that
    were processed: the ids are the decimal positions 0, 1, ..., the texts
    and labels are those of the tweets in order, there is one generated
    text per tweet, and the token length recorded for a tweet is the length
    of its full encoding, also when the input of the model was cropped to
    the context window. *)
Theorem capture_run_metadata (encode : string → list Z) (m : model F)
    (tweets : list tweet) (w0 w : world F) (run : capture_run F) :
  capture_detailed_activations encode m tweets w0 = (Ok run, w) →
  all_tweet_ids run = pretty <$> seq 0 (length tweets) ∧
  all_tweets run = text <$> tweets ∧
  all_labels run = label <$> tweets ∧
  all_token_lengths run = (λ t, length (encode (text t))) <$> tweets ∧
  length (all_generated run) = length tweets.
Proof.
  destruct (capture_run_steps encode m tweets w0) as (w1 & _ & _ & ->).
  destruct (process_tweets _ _ _ _ _ w1) as [r w2] eqn:E. cbn [fst snd].
  intros [= -> _]. by apply process_tweets_metadata in E.
Qed.

Lemma run_forward_fails (m : model F) (input_tensor : list Z) (w : world F) :
  fails (forward m input_tensor) = true →
  ∃ e w', run_forward m input_tensor w = (Raise e, w').
Proof.
  intros Hf. unfold run_forward, bind. rewrite Hf.
  destruct (for_each _ _ _) as [[[]|e] w1]; unfold raise; eauto.
Qed.

Lemma process_tweets_aborts (encode : string → list Z) (m : model F)
    (rest : list tweet) (i : nat) (run : capture_run F) (w : world F)
    (tweet_data : tweet) :
  tweet_data ∈ rest →
  fails (forward m (crop (block_size m) (encode (text tweet_data)))) = true →
  ∃ e w', process_tweets encode m i rest run w = (Raise e, w').
Proof.
  intros Hin Hf. revert i run w.
  induction rest as [|t rest IH]; intros i run w.
  - by apply elem_of_nil in Hin.
  - cbn [process_tweets]. unfold bind.
    pose proof (process_tweet_cases encode m i t run w) as Hc.
    apply elem_of_cons in Hin as [<-|Hin].
    + destruct (run_forward_fails m _ (start_capture w).2 Hf) as (e & w1 & E).
      rewrite E in Hc. rewrite Hc. eauto.
    + destruct (run_forward _ _ _) as [[generated|e] w1].
      * destruct Hc as [w2 ->]. by apply IH.
      * rewrite Hc. eauto.
Qed.

(** X11: one failing inference aborts the whole run: if the forward pass
    (or the sampling) fails for some tweet of the list, the run raises and
    returns no capture, whatever the tweets before it produced, so nothing
    is saved. *)
Theorem capture_run_aborts (encode : string → list Z) (m : model F)
    (tweets : list tweet) (w0 : world F) (tweet_data : tweet) :
  tweet_data ∈ tweets →
  fails (forward m (crop (block_size m) (encode (text tweet_data)))) = true →
  ∃ e w, capture_detailed_activations encode m tweets w0 = (Raise e, w).
Proof.
  intros Hin Hf.
  destruct (capture_run_steps encode m tweets w0) as (w1 & _ & _ & ->).
  destruct (process_tweets_aborts encode m tweets 0
              (CaptureRun ∅ [] [] [] [] []) w1 tweet_data Hin Hf)
    as (e & w2 & ->).
  eauto.
Qed.
End LoopMore.

(** ** What the forward pass receives *)




(** ** Inferences while capture is disabled *)

(** C7: while capture is disabled, every hook call is a no-op: a whole
    forward pass, with all its sites executing, leaves the world, and so
    the stored activations, unchanged, and a collection after it records
    what it would have recorded before it.  That is nothing when the
    mapping was empty, as it is when [start_capture] was never called on
    the capturer, or when [stop_capture] followed [start_capture] with no
    inference between them; [stop_capture] itself clears nothing. *)
Theorem disabled_hooks_are_noops {F} (w : world F) :
  capture_enabled w = false →
  (∀ name outputs, capture_hook name outputs w = (Ok tt, w)) ∧
  (∀ m input_tensor, (run_forward m input_tensor w).2 = w) ∧
  (∀ m input_tensor,
     activations (run_forward m input_tensor w).2 = activations w) ∧
  (∀ m input_tensor label tweet_id activation_data,
     store_activations label tweet_id
       (activations (run_forward m input_tensor w).2) activation_data
     = store_activations label tweet_id (activations w) activation_data) ∧
  (∀ m input_tensor label tweet_id activation_data,
     activations w = ∅ →
     store_activations label tweet_id
       (activations (run_forward m input_tensor w).2) activation_data
     = activation_data) ∧
  (∀ (w0 : world F) m input_tensor,
     ((stop_capture >>> run_forward m input_tensor) w0).2 = (stop_capture w0).2) ∧
  (∀ (w0 : world F) m input_tensor,
     ((new_capturer >>> run_forward m input_tensor) w0).2 = (new_capturer w0).2) ∧
  (∀ (w0 : world F) m input_tensor label tweet_id activation_data,
     store_activations label tweet_id
       (activations ((start_capture >>> stop_capture >>>
                      run_forward m input_tensor) w0).2) activation_data
     = activation_data) ∧
  (∀ (w0 : world F) n_layer m input_tensor label tweet_id activation_data,
     store_activations label tweet_id
       (activations ((new_capturer >>> register_hooks n_layer >>>
                      run_forward m input_tensor) w0).2) activation_data
     = activation_data).
Proof.
  intros Hdis. split_and!.
  - intros. by apply capture_hook_disabled.
  - intros. by apply run_forward_disabled.
  - intros. by rewrite run_forward_disabled.
  - intros. by rewrite run_forward_disabled.
  - intros m toks l i ad He. rewrite run_forward_disabled by done.
    rewrite He. apply store_activations_empty.
  - intros w0 m toks. unfold bind. simpl. by apply run_forward_disabled.
  - intros w0 m toks. unfold bind. simpl. by apply run_forward_disabled.
  - intros w0 m toks l i ad. unfold bind. simpl.
    rewrite run_forward_disabled by done. apply store_activations_empty.
  - intros w0 n m toks l i ad. unfold bind, new_capturer, register_hooks.
    destruct (register_all_exact (F:=F) (component_names n)
                (World (model_hooks w0) (next_handle w0) [] ∅ false
                       (removals w0) (stdout w0)))
      as (w1 & -> & _ & _ & Ha & Hc & _).
    cbn [activations capture_enabled] in Ha, Hc.
    rewrite run_forward_disabled by done. rewrite Ha.
    apply store_activations_empty.
Qed.

(** A forward pass on the token 9 through the hooks of [example_captured]:
    the hook of the final layer is attached and called, and the capturer
    still holds what the cycle on the token 7 stored. *)
Lemma disabled_hooks_are_noops_witness :
  registered example_captured "final_layer" ∧
  fired (forward echo_model [9]%Z)
  = [("final_layer", OutTensor (Tensor [1; 1; 1] [inject_Z 9]))] ∧
  (run_forward echo_model [9]%Z example_captured).2 = example_captured ∧
  activations example_captured !! "final_layer" = Some (Tensor [1; 1] [inject_Z 7]).
Proof.
  split; [exists 1; vm_compute; reflexivity|]. split; [reflexivity|].
  split; [|vm_compute; reflexivity].
  apply (proj1 (proj2 (disabled_hooks_are_noops example_captured eq_refl))).
Defined.

(** C7 as stated fails: an inference while capture is disabled can still
    have a sample recorded for it.  After the cycle on the token 7, the
    inference on the token 9 runs with capture disabled; the collection of
    the loop (lines 357-373) then records, under the id of that inference,
    the value 7 that the earlier cycle left in the mapping. *)
Lemma disabled_inference_records_stale :
  capture_enabled example_captured = false ∧
  ∃ w',
    (run_forward echo_model [9]%Z >>> stop_capture >>>
     let* acts := get_activations in
     ret (store_activations "sadness" "1" acts ∅)) example_captured
    = (Ok {["final_layer" := [Sample (Tensor [1; 1] [inject_Z 7]) "sadness" "1"]]},
       w').
Proof. split; [reflexivity|]. eexists. vm_compute. reflexivity. Qed.

(** The metadata of the run of the example model on its two tweets. *)
Lemma capture_run_metadata_witness :
  ∃ run w,
    capture_detailed_activations example_encode example_model example_tweets
      init_world = (Ok run, w) ∧
    all_tweet_ids run = ["0"; "1"] ∧ all_token_lengths run = [8; 3].
Proof.
  destruct (capture_detailed_activations example_encode example_model
              example_tweets init_world) as [r w] eqn:E.
  destruct r as [run|e]; [|vm_compute in E; discriminate].
  exists run, w. split; [reflexivity|].
  destruct (capture_run_metadata example_encode example_model
              example_tweets init_world w run E) as (Hi & _ & _ & Hk & _).
  split; [exact Hi|exact Hk].
Defined.

(** The example model fails on the empty tweet, the second of two. *)
Lemma capture_run_aborts_witness :
  ∃ e w, capture_detailed_activations example_encode example_model
           [Tweet "fine" "joy"; Tweet "" "sadness"] (@init_world Q)
         = (Raise e, w).
Proof.
  apply (capture_run_aborts example_encode example_model
           [Tweet "fine" "joy"; Tweet "" "sadness"] init_world
           (Tweet "" "sadness")).
  - apply list_elem_of_further, list_elem_of_here.
  - reflexivity.
Defined.

Section BenignRuns.
Context {F : Type}.

Lemma extract_benign (outputs : hook_output F) :
  benign outputs = true → ∃ value, extract outputs = Ok value.
Proof.
  unfold benign, extract, primary, select_last.
  destruct outputs as [t|[|t ts]]; cbn [head]; [|done|];
    (destruct (rank t =? 3); cbn [andb negb]; [|eauto];
     destruct (dim t 1 =? 0); [done|eauto]).
Qed.

Lemma for_each_hooks_benign (outputs : hook_output F)
    (l : list (nat * string)) (w : world F) :
  benign outputs = true →
  ∃ w', for_each (λ hn : nat * string, capture_hook hn.2 outputs) l w
        = (Ok tt, w').
Proof.
  intros Hb. revert w. induction l as [|hn l IH]; intros w.
  - by exists w.
  - cbn [for_each]. unfold bind. rewrite capture_hook_extract.
    destruct (extract_benign outputs Hb) as [value ->].
    destruct (capture_enabled w); apply IH.
Qed.

Lemma fire_all_benign (evs : list (string * hook_output F)) (w : world F) :
  (∀ ev, ev ∈ evs → benign ev.2 = true) →
  ∃ w', for_each fire evs w = (Ok tt, w').
Proof.
  revert w. induction evs as [|ev evs IH]; intros w Hb.
  - by exists w.
  - cbn [for_each]. unfold bind. unfold fire at 1.
    destruct (for_each_hooks_benign ev.2
                (filter (λ hn : nat * string, hn.2 = ev.1)
                        (map_to_list (model_hooks w))) w) as [w1 ->].
    { apply Hb. left. }
    apply IH. intros ev' Hin. apply Hb. by right.
Qed.

Lemma process_tweets_benign (encode : string → list Z) (m : model F)
    (rest : list tweet) (i : nat) (run : capture_run F) (w : world F) :
  (∀ tweet_data, tweet_data ∈ rest →
     fails (forward m (crop (block_size m) (encode (text tweet_data)))) = false ∧
     ∀ ev, ev ∈ fired (forward m (crop (block_size m)
                                       (encode (text tweet_data)))) →
           benign ev.2 = true) →
  ∃ run' w', process_tweets encode m i rest run w = (Ok run', w').
Proof.
  revert i run w. induction rest as [|t rest IH]; intros i run w Hb.
  - by exists run, w.
  - cbn [process_tweets]. unfold bind.
    pose proof (process_tweet_cases encode m i t run w) as Hc.
    destruct (Hb t) as [Hf Hev]; [left|].
    unfold run_forward, bind in Hc. rewrite Hf in Hc.
    destruct (fire_all_benign _ (start_capture w).2 Hev) as [w1 Hfire].
    rewrite Hfire in Hc. unfold ret in Hc. destruct Hc as [w2 ->].
    apply IH. intros t' Hin. apply Hb. by right.
Qed.

(** X12: the run returns a capture whenever no inference fails and every
    module output that reaches a hook is one the hook can read: a tensor,
    or a tuple with a first element, that is not of rank 3 with an empty
    sequence dimension.  The capture then holds one metadata entry per
    tweet. *)
Theorem capture_run_returns (encode : string → list Z) (m : model F)
    (tweets : list tweet) (w0 : world F) :
  (∀ tweet_data, tweet_data ∈ tweets →
     fails (forward m (crop (block_size m) (encode (text tweet_data)))) = false ∧
     ∀ ev, ev ∈ fired (forward m (crop (block_size m)
                                       (encode (text tweet_data)))) →
           benign ev.2 = true) →
  ∃ run w, capture_detailed_activations encode m tweets w0 = (Ok run, w) ∧
           length (all_tweets run) = length tweets.
Proof.
  intros Hb.
  destruct (capture_run_steps encode m tweets w0) as (w1 & _ & _ & ->).
  destruct (process_tweets_benign encode m tweets 0
              (CaptureRun ∅ [] [] [] [] []) w1 Hb) as (run & w2 & E).
  rewrite E. cbn [fst snd]. eexists _, _. split; [reflexivity|].
  apply process_tweets_metadata in E as (_ & -> & _).
  cbn. by rewrite length_fmap.
Qed.
End BenignRuns.

(** The two example tweets are not empty and all sites of the example model
    produce a rank-3 tensor with two positions. *)
Lemma capture_run_returns_witness :
  ∃ run w,
    capture_detailed_activations example_encode example_model example_tweets
      (@init_world Q) = (Ok run, w) ∧
    length (all_tweets run) = length example_tweets.
Proof.
  apply (capture_run_returns example_encode example_model example_tweets
           init_world).
  intros tweet_data Hin.
  apply elem_of_cons in Hin as [->|Hin];
    [|apply elem_of_cons in Hin as [->|Hin]; [|by apply elem_of_nil in Hin]].
  - split; [reflexivity|]. intros ev Hev.
    repeat (apply elem_of_cons in Hev as [->|Hev]; [reflexivity|]).
    by apply elem_of_nil in Hev.
  - split; [reflexivity|]. intros ev Hev.
    repeat (apply elem_of_cons in Hev as [->|Hev]; [reflexivity|]).
    by apply elem_of_nil in Hev.
Defined.

(** ** Which components a run captures *)

Section ComponentsMore.
Context {F : Type}.

Lemma run_forward_world (m : model F) (input_tensor : list Z) (w : world F) :
  (run_forward m input_tensor w).2
  = (for_each fire (fired (forward m input_tensor)) w).2.
Proof.
  unfold run_forward, bind.
  destruct (for_each _ _ _) as [[[]|e] w1]; [|done]. by destruct (fails _).
Qed.

Lemma store_activations_dom (label tweet_id name : string)
    (acts : gmap string (tensor F))
    (activation_data : gmap string (list (sample F))) :
  name ∈ dom (store_activations label tweet_id acts activation_data) →
  name ∈ dom activation_data ∨ name ∈ dom acts.
Proof.
  rewrite !elem_of_dom, store_activations_lookup.
  destruct (acts !! name); [right; eauto|by left].
Qed.

Lemma process_tweets_registered (encode : string → list Z) (m : model F)
    (rest : list tweet) (i : nat) (run run' : capture_run F) (w w' : world F) :
  (∀ name, name ∈ dom (activation_data run) → registered w name) →
  process_tweets encode m i rest run w = (Ok run', w') →
  ∀ name, name ∈ dom (activation_data run') → registered w name.
Proof.
  revert i run w. induction rest as [|t rest IH]; intros i run w Hinv.
  - cbn. by intros [= <- _].
  - cbn [process_tweets]. unfold bind.
    pose proof (process_tweet_cases encode m i t run w) as Hc.
    pose proof (keeps_process_tweet encode m i t run w) as (Hmh & _).
    pose proof (run_forward_world m (crop (block_size m) (encode (text t)))
                  (start_capture w).2) as Hw.
    destruct (run_forward _ _ _) as [[generated|e] w1]; [|by rewrite Hc].
    destruct Hc as [w2 Hc]. rewrite Hc in Hmh |- *. cbn [snd] in Hmh, Hw.
    intros Hrest name Hin.
    assert (Hreg : ∀ name, registered w2 name ↔ registered w name).
    { intros n. unfold registered. by rewrite Hmh. }
    apply Hreg. eapply IH; [|exact Hrest|exact Hin].
    intros n Hn. apply Hreg. cbn [activation_data] in Hn.
    apply store_activations_dom in Hn as [Hn|Hn]; [by apply Hinv|].
    rewrite Hw in Hn. apply fire_all_dom in Hn as [Hn|[_ Hn]]; [|done].
    cbn in Hn. by apply elem_of_empty in Hn.
Qed.

Lemma capture_run_components (encode : string → list Z) (m : model F)
    (tweets : list tweet) (w0 w : world F) (run : capture_run F) :
  model_hooks w0 = ∅ →
  capture_detailed_activations encode m tweets w0 = (Ok run, w) →
  ∀ name, name ∈ dom (activation_data run) →
          name ∈ component_names (n_layer m).
Proof.
  intros Hempty.
  destruct (capture_run_steps encode m tweets w0) as (w1 & _ & Hreg & ->).
  destruct (process_tweets _ _ _ _ _ w1) as [r w2] eqn:E. cbn [fst snd].
  intros [= -> _] name Hin.
  destruct (Hreg name) as [[h Hh]|Hc]; [|by rewrite Hempty in Hh|done].
  eapply process_tweets_registered; [|exact E|exact Hin].
  intros n Hn. cbn in Hn. by apply elem_of_empty in Hn.
Qed.
End ComponentsMore.

Lemma string_app_length (s1 s2 : string) :
  String.length (s1 +:+ s2) = String.length s1 + String.length s2.
Proof.
  induction s1 as [|c s1 IH]; [done|].
  change (S (String.length (s1 +:+ s2))
          = S (String.length s1 + String.length s2)).
  by rewrite IH.
Qed.

Lemma string_app_inj_r (s1 s2 s : string) : s1 +:+ s = s2 +:+ s → s1 = s2.
Proof.
  revert s2. induction s1 as [|c s1 IH]; intros [|c2 s2] Heq; [done| | |].
  - apply (f_equal String.length) in Heq.
    rewrite !string_app_length in Heq. cbn [String.length] in Heq. lia.
  - apply (f_equal String.length) in Heq.
    rewrite !string_app_length in Heq. cbn [String.length] in Heq. lia.
  - change (String c (s1 +:+ s) = String c2 (s2 +:+ s)) in Heq.
    injection Heq as -> Heq. f_equal. by apply IH.
Qed.

(** A registered name is one of the two fixed names or a layer component,
    which is at least ten characters long and starts with [layer_]. *)
Lemma elem_of_component_names (n : nat) (name : string) :
  name ∈ component_names n →
  name = "input_embeds" ∨ name = "final_layer" ∨
  ∃ rest, name = "layer_" +:+ rest ∧ 4 ≤ String.length rest.
Proof.
  unfold component_names. intros Hin.
  apply elem_of_cons in Hin as [->|Hin]; [by left|].
  apply elem_of_app in Hin as [Hin|Hin].
  - right. right. apply list_elem_of_In, in_flat_map in Hin as (i & _ & Hin).
    apply list_elem_of_In in Hin. unfold layer_components in Hin.
    repeat (apply elem_of_cons in Hin as [->|Hin];
            [eexists; split; [cbn; reflexivity|];
             rewrite string_app_length; cbn; lia|]).
    by apply elem_of_nil in Hin.
  - right. left. by apply list_elem_of_singleton in Hin.
Qed.

Lemma listed_components_eq (n : nat) :
  listed_components n = component_names n ++ ["logits"].
Proof.
  unfold listed_components, component_names. cbn. f_equal.
  by rewrite <- app_assoc.
Qed.

Lemma logits_not_registered (n : nat) : "logits" ∉ component_names n.
Proof.
  intros Hin. apply elem_of_component_names in Hin
    as [Hin|[Hin|(rest & Hin & _)]]; discriminate.
Qed.

(** X13: every component a run captures is one that
    [list_available_components] prints, but not the other way round: the
    listing ends with [logits], for which [register_hooks] attaches no
    hook, so that a run never records a sample under that name. *)
Theorem logits_listed_never_captured {F} (encode : string → list Z)
    (m : model F) (tweets : list tweet) (w0 w : world F) (run : capture_run F) :
  model_hooks w0 = ∅ →
  capture_detailed_activations encode m tweets w0 = (Ok run, w) →
  (∀ name, name ∈ dom (activation_data run) →
           name ∈ listed_components (n_layer m)) ∧
  last (listed_components (n_layer m)) = Some "logits" ∧
  activation_data run !! "logits" = None.
Proof.
  intros Hempty Hrun. rewrite listed_components_eq. split_and!.
  - intros name Hin. apply elem_of_app. left.
    by eapply capture_run_components.
  - by rewrite last_snoc.
  - apply not_elem_of_dom. intros Hin.
    apply (logits_not_registered (n_layer m)).
    by eapply capture_run_components.
Qed.

Lemma logits_listed_never_captured_witness :
  ∃ run w,
    capture_detailed_activations example_encode example_model example_tweets
      init_world = (Ok run, w) ∧
    activation_data run !! "logits" = None.
Proof.
  destruct (capture_detailed_activations example_encode example_model
              example_tweets init_world) as [r w] eqn:E.
  destruct r as [run|e]; [|vm_compute in E; discriminate].
  exists run, w. split; [reflexivity|].
  exact (proj2 (proj2 (logits_listed_never_captured example_encode
                         example_model example_tweets init_world w run
                         eq_refl E))).
Defined.

Lemma elem_of_saved_files {F} (run : capture_run F) (f : string) :
  f ∈ saved_files run ↔
  (∃ name, name ∈ dom (activation_data run) ∧ f = name +:+ "_activations.pt")
  ∨ f = "gen_metadata.pt" ∨ f = "samples.json".
Proof.
  unfold saved_files. rewrite elem_of_app, list_elem_of_fmap. split.
  - intros [([name l] & -> & Hin)|Hin].
    + left. exists name. split; [|done].
      apply elem_of_map_to_list in Hin. apply elem_of_dom. eauto.
    + right. apply elem_of_cons in Hin as [->|Hin]; [by left|right].
      by apply list_elem_of_singleton in Hin.
  - intros [(name & Hin & ->)|[-> | ->]].
    + left. apply elem_of_dom in Hin as [l Hl]. exists (name, l).
      split; [done|]. by apply elem_of_map_to_list.
    + right. left.
    + right. right. left.
Qed.

(** X14: the emotion analysis, run on the directory a detailed capture
    wrote, reads [final_layer] at most: of its four key layers,
    [layer_9], [layer_10] and [layer_11] name no file there, because the
    capture saves the layers under [layer_<i>_output] and the names of
    their parts. *)
Theorem detailed_capture_key_layers {F} (encode : string → list Z)
    (m : model F) (tweets : list tweet) (w0 w : world F) (run : capture_run F)
    (listdir : list string) (layer : string) :
  model_hooks w0 = ∅ →
  capture_detailed_activations encode m tweets w0 = (Ok run, w) →
  (∀ f, f ∈ listdir → f ∈ saved_files run) →
  layer ∈ key_layers_of (activation_files_of listdir) →
  layer = "final_layer".
Proof.
  intros Hempty Hrun Hdir [Hkey Hfile]%key_layers_spec.
  apply Hdir, elem_of_saved_files in Hfile
    as [(name & Hin & Heq)|[Heq|Heq]].
  - apply string_app_inj_r in Heq as <-.
    eapply capture_run_components in Hin; [|exact Hempty|exact Hrun].
    apply elem_of_component_names in Hin
      as [->|[->|(rest & -> & Hlen)]]; [|done|].
    + repeat (apply elem_of_cons in Hkey as [Hkey|Hkey]; [discriminate|]).
      by apply elem_of_nil in Hkey.
    + repeat (apply elem_of_cons in Hkey as [Hkey|Hkey];
              [first [discriminate
                     |apply (f_equal String.length) in Hkey;
                      rewrite string_app_length in Hkey;
                      cbn [String.length] in Hkey; lia]|]).
      by apply elem_of_nil in Hkey.
  - repeat (apply elem_of_cons in Hkey as [->|Hkey]; [discriminate|]).
    by apply elem_of_nil in Hkey.
  - repeat (apply elem_of_cons in Hkey as [->|Hkey]; [discriminate|]).
    by apply elem_of_nil in Hkey.
Qed.

(** The directory written by the run of the example model holds a file for
    [final_layer], and that is the only key layer the analysis finds. *)
Lemma detailed_capture_key_layers_witness :
  ∃ run w,
    capture_detailed_activations example_encode example_model example_tweets
      init_world = (Ok run, w) ∧
    "final_layer" ∈ key_layers_of (activation_files_of (saved_files run)) ∧
    ∀ layer, layer ∈ key_layers_of (activation_files_of (saved_files run)) →
             layer = "final_layer".
Proof.
  destruct (capture_detailed_activations example_encode example_model
              example_tweets init_world) as [r w] eqn:E.
  destruct r as [run|e]; [|vm_compute in E; discriminate].
  exists run, w. split; [reflexivity|]. split.
  - apply key_layers_spec. split; [left|].
    apply elem_of_saved_files. left. exists "final_layer". split; [|done].
    pose proof E as E'. vm_compute in E'. injection E' as <- _.
    apply elem_of_dom. eexists. vm_compute. reflexivity.
  - intros layer.
    exact (detailed_capture_key_layers example_encode example_model
             example_tweets init_world w run (saved_files run) layer
             eq_refl E (λ f Hf, Hf)).
Defined.

(** ** The tuning recommendations of the report *)

Section ReportFacts.
Context {F : Type} `{Scalar F}.
Context (zero : F).
Context (neuron_importance : gmap string (gmap string (list nat * list F))).
Context (emotion : string).

Lemma np_lt_trans (x y z : F) :
  strict_weak_order F →
  np_lt x y = true → np_lt y z = true → np_lt x z = true.
Proof.
  intros [Hasym Hneg] Hxy Hyz.
  destruct (np_lt x z) eqn:Hxz; [done|].
  apply Hasym in Hyz. by rewrite (Hneg x z y Hxz Hyz) in Hxy.
Qed.

Lemma search_inv_step (L : list string) (layer : string) (st st' : search F) :
  strict_weak_order F →
  search_inv zero neuron_importance emotion L st →
  best_step neuron_importance emotion st layer = Ok st' →
  search_inv zero neuron_importance emotion (L ++ [layer]) st'.
Proof.
  intros Hswo [Hbest Hmax]. pose proof Hswo as [Hasym Hneg].
  unfold best_step.
  assert (Hkeep : (∀ neurons s scores,
                     entry neuron_importance emotion layer
                     = Some (neurons, s :: scores) →
                     np_lt (top_score st) s = false) →
                  search_inv zero neuron_importance emotion (L ++ [layer]) st).
  { intros Hl. split.
    - destruct (best_layer st) as [l|]; [|done].
      destruct Hbest as (Hin & Hpos & Hentry). split_and!; [|done..].
      apply elem_of_app. by left.
    - intros l neurons s scores [Hin|Hin%list_elem_of_singleton]%elem_of_app.
      + by apply Hmax.
      + subst l. apply Hl. }
  destruct (entry neuron_importance emotion layer)
    as [[neurons [|s0 scores]]|] eqn:E.
  - intros [= <-]. apply Hkeep. intros ??? [=].
  - destruct (np_lt (top_score st) s0) eqn:Hlt.
    + destruct neurons as [|n0 neurons]; [done|]. intros [= <-].
      split; cbn [best_layer top_score top_neuron].
      * split_and!.
        -- apply elem_of_app. right. left.
        -- destruct (best_layer st) as [l|].
           ++ destruct Hbest as (_ & Hpos & _). by eapply np_lt_trans.
           ++ destruct Hbest as [<- _]. done.
        -- exists n0, neurons, scores. done.
      * intros l neurons' s scores'
          [Hin|Hin%list_elem_of_singleton]%elem_of_app Hl.
        -- apply (Hneg s0 (top_score st) s); [by apply Hasym|].
           by eapply Hmax.
        -- subst l. rewrite E in Hl. injection Hl as _ <- _.
           destruct (np_lt s0 s0) eqn:Hrefl; [|done].
           by rewrite (Hasym _ _ Hrefl) in Hrefl.
    + intros [= <-]. apply Hkeep. intros ??? [= _ <- _]. done.
  - intros [= <-]. apply Hkeep. intros ??? [=].
Qed.

Lemma best_search_inv (L key_layers : list string) (st st' : search F) :
  strict_weak_order F →
  search_inv zero neuron_importance emotion L st →
  best_search neuron_importance emotion key_layers st = Ok st' →
  search_inv zero neuron_importance emotion (L ++ key_layers) st'.
Proof.
  intros Hswo. revert L st.
  induction key_layers as [|layer rest IH]; intros L st Hinv; cbn.
  - intros [= <-]. by rewrite app_nil_r.
  - destruct (best_step _ _ _ _) as [st1|e] eqn:E; cbn; [|done].
    intros Hrest. rewrite cons_middle, app_assoc.
    eapply IH; [|exact Hrest]. by eapply search_inv_step.
Qed.

Lemma search_inv_init :
  search_inv zero neuron_importance emotion [] (Search None zero None).
Proof. split; [done|]. intros ???? Hin. by apply elem_of_nil in Hin. Qed.

(** X15: when the report recommends a layer for an emotion, that layer is
    a key layer whose first (highest-ranked) score is above 0 and is not
    exceeded by the first score of any key layer; the primary neuron is
    the first neuron of that layer and the neurons to amplify are its
    first three with their scores. *)
Theorem recommend_best (key_layers : list string) (layer : string)
    (primary_neuron : option nat) (score : F) (neuron_info : list (nat * F)) :
  strict_weak_order F →
  recommend zero neuron_importance key_layers emotion
  = Ok (Recommend layer primary_neuron score neuron_info) →
  layer ∈ key_layers ∧ np_lt zero score = true ∧
  (∃ n0 neurons scores,
     entry neuron_importance emotion layer
     = Some (n0 :: neurons, score :: scores) ∧
     primary_neuron = Some n0 ∧
     neuron_info = zip (take 3 (n0 :: neurons)) (take 3 (score :: scores))) ∧
  (∀ other neurons s scores,
     other ∈ key_layers →
     entry neuron_importance emotion other = Some (neurons, s :: scores) →
     np_lt score s = false).
Proof.
  intros Hswo. unfold recommend.
  destruct (best_search _ _ _ _) as [st|e] eqn:E; cbn; [|done].
  apply (best_search_inv [] key_layers _ st Hswo search_inv_init) in E
    as [Hbest Hmax]. rewrite app_nil_l in *.
  destruct (best_layer st) as [l|]; [|done].
  destruct Hbest as (Hin & Hpos & n0 & neurons & scores & Hentry & Hn).
  case_bool_decide; [done|]. unfold entry in Hentry.
  destruct (neuron_importance !! emotion) as [by_layer|] eqn:En; [|done].
  cbn in Hentry. rewrite Hentry. intros [= <- <- <- <-].
  split; [exact Hin|]. split; [exact Hpos|]. split; [|exact Hmax].
  exists n0, neurons, scores. split; [|by split].
  unfold entry. rewrite En. exact Hentry.
Qed.

Lemma best_search_none (key_layers : list string) :
  (∀ layer neurons s scores,
     layer ∈ key_layers →
     entry neuron_importance emotion layer = Some (neurons, s :: scores) →
     np_lt zero s = false) →
  best_search neuron_importance emotion key_layers (Search None zero None)
  = Ok (Search None zero None).
Proof.
  induction key_layers as [|layer rest IH]; intros Hall; [done|].
  cbn [best_search]. unfold best_step at 1.
  destruct (entry neuron_importance emotion layer)
    as [[neurons [|s0 scores]]|] eqn:E; cbn.
  - apply IH. intros. eapply Hall; [by right|done].
  - rewrite (Hall layer neurons s0 scores) by (done || left). cbn.
    apply IH. intros. eapply Hall; [by right|done].
  - apply IH. intros. eapply Hall; [by right|done].
Qed.

Lemma best_search_layer_in (key_layers : list string) (st st' : search F)
    (layer : string) :
  best_search neuron_importance emotion key_layers st = Ok st' →
  best_layer st' = Some layer →
  best_layer st = Some layer ∨ layer ∈ key_layers.
Proof.
  revert st. induction key_layers as [|l rest IH]; intros st; cbn.
  - intros [= <-]. by left.
  - destruct (best_step _ _ _ _) as [st1|e] eqn:E; cbn; [|done].
    intros Hrest Hbest. destruct (IH st1 Hrest Hbest) as [H1|Hin].
    + unfold best_step in E.
      destruct (entry neuron_importance emotion l)
        as [[neurons [|s0 scores]]|]; [| |by injection E as <-; left].
      * injection E as <-. by left.
      * destruct (np_lt (top_score st) s0); [|by injection E as <-; left].
        destruct neurons as [|n0 neurons]; [done|]. injection E as <-.
        cbn in H1. injection H1 as <-. right. left.
    + right. by right.
Qed.

Lemma best_search_unset (key_layers : list string) (st st' : search F) :
  best_search neuron_importance emotion key_layers st = Ok st' →
  best_layer st' = None →
  ∀ layer neurons s scores,
    layer ∈ key_layers →
    entry neuron_importance emotion layer = Some (neurons, s :: scores) →
    np_lt (top_score st) s = false.
Proof.
  revert st. induction key_layers as [|l rest IH]; intros st; cbn.
  - intros _ _ layer neurons s scores Hin. by apply elem_of_nil in Hin.
  - destruct (best_step _ _ _ _) as [st1|e] eqn:E; cbn; [|done].
    intros Hrest Hnone.
    assert (H1 : best_layer st1 = None).
    { destruct (best_layer st1) as [l1|] eqn:E1; [|done].
      assert (Hkeep : ∀ rest' (s1 s2 : search F),
                best_search neuron_importance emotion rest' s1 = Ok s2 →
                best_layer s1 ≠ None → best_layer s2 ≠ None).
      { clear. induction rest' as [|l' rest' IH']; intros s1 s2; cbn.
        - by intros [= <-].
        - unfold best_step.
          destruct (entry neuron_importance emotion l')
            as [[neurons [|s0 scores]]|]; cbn; [by apply IH'| |by apply IH'].
          destruct (np_lt (top_score s1) s0); cbn; [|by apply IH'].
          destruct neurons as [|n0 neurons]; cbn; [done|].
          intros Hs _. by eapply IH'. }
      exfalso. eapply (Hkeep rest st1 st' Hrest); [by rewrite E1|done]. }
    assert (Hst : st1 = st ∧
                  ∀ neurons s scores,
                    entry neuron_importance emotion l
                    = Some (neurons, s :: scores) →
                    np_lt (top_score st) s = false).
    { unfold best_step in E.
      destruct (entry neuron_importance emotion l)
        as [[neurons [|s0 scores]]|];
        [injection E as <-; by split| |injection E as <-; by split].
      destruct (np_lt (top_score st) s0) eqn:Hlt.
      - destruct neurons as [|n0 neurons]; [done|]. injection E as <-. done.
      - injection E as <-. split; [done|]. by intros ??? [= _ <- _]. }
    destruct Hst as [-> Hl].
    intros layer neurons s scores [->|Hin]%elem_of_cons Hentry.
    + by eapply Hl.
    + by eapply IH.
Qed.

(** X16: the report writes that no strong distinctive neuron was found for
    an emotion exactly when no key layer has a first score above 0 for it:
    layers without an entry or with no score do not count, and a top score
    of 0 or below is never recommended.  This holds for whatever the
    comparison of scores computes. *)
Theorem no_recommendation (key_layers : list string) :
  "" ∉ key_layers →
  recommend zero neuron_importance key_layers emotion = Ok NoStrongNeurons ↔
  ∀ layer neurons s scores,
    layer ∈ key_layers →
    entry neuron_importance emotion layer = Some (neurons, s :: scores) →
    np_lt zero s = false.
Proof.
  intros Hne. split.
  - unfold recommend.
    destruct (best_search _ _ _ _) as [st|e] eqn:E; cbn; [|done].
    destruct (best_layer st) as [l|] eqn:El.
    + destruct (best_search_layer_in _ _ _ l E El) as [?|Hin]; [done|].
      case_bool_decide; [by subst l|].
      destruct (neuron_importance !! emotion) as [by_layer|]; [|done].
      by destruct (by_layer !! l) as [[??]|].
    + intros _. exact (best_search_unset _ _ _ E El).
  - intros Hall. unfold recommend. by rewrite best_search_none.
Qed.
End ReportFacts.

(** Joy has the first score 3 in the final layer, which is recommended. *)
Lemma recommend_best_witness :
  "final_layer" ∈ ["final_layer"; "layer_11"] ∧
  @np_lt Q Q_scalar 0%Q 3%Q = true.
Proof.
  destruct (@recommend_best Q Q_scalar 0%Q example_importance "joy"
              ["final_layer"; "layer_11"] "final_layer" (Some 2) 3%Q
              [(2, 3%Q); (0, 1%Q)] Q_strict_weak_order
              ltac:(vm_compute; reflexivity)) as (Hin & Hpos & _).
  split; [exact Hin|exact Hpos].
Defined.

(** Fear has the first score -1 in its only layer: nothing is recommended. *)
Lemma no_recommendation_witness :
  @recommend Q Q_scalar 0%Q example_importance
    ["final_layer"; "layer_11"] "fear"
  = Ok NoStrongNeurons.
Proof.
  apply (@no_recommendation Q Q_scalar 0%Q example_importance "fear"
           ["final_layer"; "layer_11"]).
  - intros Hin.
    repeat (apply elem_of_cons in Hin as [Hin|Hin]; [discriminate|]).
    by apply elem_of_nil in Hin.
  - intros layer neurons s scores Hin Hentry.
    repeat (apply elem_of_cons in Hin as [->|Hin];
            [vm_compute in Hentry; try discriminate;
             injection Hentry as _ <- _; reflexivity|]).
    by apply elem_of_nil in Hin.
Defined.

(** ** The report on what the analysis loaded *)

Section ReportOnLoaded.
Context {F : Type} `{Scalar F} `{Argsort F}.

Lemma fancy_index_length {A} (d : list A) (idx : list nat) (xs : list A) :
  fancy_index d idx = Ok xs → length xs = length idx.
Proof.
  revert xs. induction idx as [|i idx IH]; intros xs; cbn.
  - by intros [= <-].
  - destruct (d !! i); [|done].
    destruct (fancy_index d idx) as [ys|e]; cbn; [|done].
    intros [= <-]. cbn. f_equal. by apply IH.
Qed.

Lemma importance_balanced (width : nat) (activations_array : list (list F))
    (all_labels : list string) (emotion : string) (neurons : list nat)
    (scores : list F) :
  importance width activations_array all_labels emotion
  = Ok (Stored neurons scores) →
  length neurons = length scores.
Proof.
  unfold importance. destruct (_ && _); [|done].
  destruct (fancy_index activations_array _) as [ea|e]; cbn; [|done].
  destruct (fancy_index activations_array _) as [oa|e]; cbn; [|done].
  destruct (fancy_index _ _) as [sc|e] eqn:E; cbn; [|done].
  intros [= <- <-]. symmetry. by apply fancy_index_length in E.
Qed.

Lemma balanced_insert (emotion layer : string) (neurons : list nat)
    (scores : list F)
    (neuron_importance : gmap string (gmap string (list nat * list F))) :
  length neurons = length scores →
  balanced neuron_importance →
  balanced (<[emotion := <[layer := (neurons, scores)]>
                           (default ∅ (neuron_importance !! emotion))]>
              neuron_importance).
Proof.
  intros Hlen Hb e by_layer l ns ss.
  destruct (decide (e = emotion)) as [->|Hne].
  - rewrite lookup_insert_eq. intros [= <-].
    destruct (decide (l = layer)) as [->|Hnl].
    + rewrite lookup_insert_eq. by intros [= <- <-].
    + rewrite lookup_insert_ne by done.
      destruct (neuron_importance !! emotion) as [inner|] eqn:E; cbn.
      * by apply (Hb emotion).
      * by rewrite lookup_empty.
  - rewrite lookup_insert_ne by done. apply Hb.
Qed.

Lemma importance_loop_balanced (layer : string) (width : nat)
    (activations_array : list (list F)) (all_labels emotions : list string)
    (st st' : analysis F) :
  balanced (neuron_importance_by_emotion st) →
  importance_loop layer width activations_array all_labels emotions st = Ok st' →
  balanced (neuron_importance_by_emotion st').
Proof.
  revert st. induction emotions as [|emotion rest IH]; intros st Hst; cbn.
  - by intros [= <-].
  - destruct (importance _ _ _ _) as [[neurons scores|]|e] eqn:E; cbn; [| |done].
    + apply IH. cbn. apply balanced_insert; [|done].
      by eapply importance_balanced.
    + by apply IH.
Qed.

Lemma process_layer_balanced (labels : list string)
    (torch_load : string → list (item F)) (st st' : analysis F)
    (layer : string) :
  balanced (neuron_importance_by_emotion st) →
  process_layer labels torch_load st layer = Ok st' →
  balanced (neuron_importance_by_emotion st').
Proof.
  intros Hb. unfold process_layer.
  destruct (collect_from _ _ _) as [kept logs].
  destruct (kept.*1) as [|a rest] eqn:E.
  - by intros [= <-].
  - destruct (stack_layer _ _ _) as [[sl logs2]|e]; cbn; [|done].
    destruct sl as [width activations_array stored_labels|].
    + by apply importance_loop_balanced.
    + by intros [= <-].
Qed.

Lemma process_layers_balanced (labels : list string)
    (torch_load : string → list (item F)) (layers : list string)
    (st st' : analysis F) :
  balanced (neuron_importance_by_emotion st) →
  process_layers labels torch_load layers st = Ok st' →
  balanced (neuron_importance_by_emotion st').
Proof.
  revert st. induction layers as [|layer rest IH]; intros st Hst; cbn.
  - by intros [= <-].
  - destruct (process_layer _ _ _ _) as [st1|e] eqn:E; cbn; [|done].
    apply IH. by eapply process_layer_balanced.
Qed.

Lemma best_search_balanced (zero : F)
    (neuron_importance : gmap string (gmap string (list nat * list F)))
    (emotion : string) (key_layers : list string) (st : search F) :
  balanced neuron_importance →
  (∀ layer, best_layer st = Some layer →
            is_Some (entry neuron_importance emotion layer)) →
  ∃ st', best_search neuron_importance emotion key_layers st = Ok st' ∧
         ∀ layer, best_layer st' = Some layer →
                  is_Some (entry neuron_importance emotion layer).
Proof.
  intros Hb. revert st.
  induction key_layers as [|layer rest IH]; intros st Hst; cbn.
  - by exists st.
  - unfold best_step.
    destruct (entry neuron_importance emotion layer)
      as [[neurons [|s0 scores]]|] eqn:E; cbn; [by apply IH| |by apply IH].
    destruct (np_lt (top_score st) s0); cbn; [|by apply IH].
    destruct neurons as [|n0 neurons]; cbn.
    + unfold entry in E.
      destruct (neuron_importance !! emotion) as [by_layer|] eqn:En; [|done].
      cbn in E. by pose proof (Hb _ _ _ _ _ En E).
    + apply IH. cbn. intros l [= <-]. by rewrite E.
Qed.

(** X17: the recommendation section of the report never raises on what
    [load_activations] returned: the importance entries it stored have as
    many neurons as scores, so the first neuron exists whenever the first
    score does, and the best layer is looked up under keys that exist. *)
Theorem report_never_raises (zero : F) (listdir : list string)
    (torch_load : string → list (item F)) (labels : list string)
    (st : analysis F) (key_layers : list string) (emotion : string) :
  load_activations listdir torch_load labels = Ok (st, key_layers) →
  ∃ r, recommend zero (neuron_importance_by_emotion st) key_layers emotion
       = Ok r.
Proof.
  unfold load_activations.
  generalize (key_layers_of (activation_files_of listdir)). intros layers.
  destruct (process_layers _ _ _ _) as [st1|e] eqn:E;
    cbn [bind_result]; [|done].
  intros [= -> <-].
  apply process_layers_balanced in E;
    [|intros e by_layer ???; cbn; by rewrite lookup_empty].
  unfold recommend.
  destruct (best_search_balanced zero (neuron_importance_by_emotion st)
              emotion layers (Search None zero None) E)
    as (st' & -> & Hbest); [done|].
  cbn [bind_result]. destruct (best_layer st') as [l|]; [|eauto].
  case_bool_decide; [eauto|].
  destruct (Hbest l eq_refl) as [[neurons scores] Hentry].
  unfold entry in Hentry.
  destruct (neuron_importance_by_emotion st !! emotion) as [by_layer|];
    [|done].
  cbn in Hentry. rewrite Hentry. eauto.
Qed.
End ReportOnLoaded.

(** Two vectors of the same length, one for each of two emotions. *)
Lemma report_never_raises_witness :
  ∃ st key_layers r,
    @load_activations Q Q_scalar (@argsort_insertion Q Q_scalar)
      ["final_layer_activations.pt"; "gen_metadata.pt"]
      (λ _, [ItemDict (Some (Tensor [2] [1; 0]%Q));
             ItemDict (Some (Tensor [2] [0; 1]%Q))])
      ["joy"; "sad"]
    = Ok (st, key_layers) ∧
    @recommend Q Q_scalar 0%Q (neuron_importance_by_emotion st) key_layers "joy"
    = Ok r.
Proof.
  destruct (@load_activations Q Q_scalar (@argsort_insertion Q Q_scalar)
              ["final_layer_activations.pt"; "gen_metadata.pt"]
              (λ _, [ItemDict (Some (Tensor [2] [1; 0]%Q));
                     ItemDict (Some (Tensor [2] [0; 1]%Q))])
              ["joy"; "sad"]) as [[st key_layers]|e] eqn:E;
    [|vm_compute in E; discriminate].
  destruct (@report_never_raises Q Q_scalar (@argsort_insertion Q Q_scalar)
              0%Q _ _ _ st key_layers "joy" E) as [r Hr].
  exists st, key_layers, r. split; [reflexivity|exact Hr].
Defined.

(** ** The limit on the number of tweets *)

Lemma slice_to_take {A} (stop : Z) (l : list A) :
  slice_to stop l =
    if (stop <? 0)%Z then take (length l - Z.to_nat (- stop)) l
    else take (Z.to_nat stop) l.
Proof.
  unfold slice_to. destruct (Z.ltb_spec stop 0).
  - f_equal. lia.
  - destruct (Z.le_ge_cases stop (Z.of_nat (length l))).
    + f_equal. lia.
    + rewrite Z.min_r by lia. rewrite Nat2Z.id.
      rewrite !take_ge; [done|lia|lia].
Qed.

(** X18: with [max_tweets] given, a run that returns has processed a
    prefix of the loaded tweets, in their order: the first [max_tweets] of
    them (all, when there are fewer) for a limit of 0 or more, and all but
    the last [-max_tweets] for a negative limit, which is not rejected. *)
Theorem capture_limited {F} (encode : string → list Z) (m : model F)
    (tweets : list tweet) (max_tweets : Z) (w0 w : world F)
    (run : capture_run F) :
  capture_detailed_activations encode m (limit_tweets (Some max_tweets) tweets)
    w0 = (Ok run, w) →
  all_tweets run =
    text <$> (if (max_tweets <? 0)%Z
              then take (length tweets - Z.to_nat (- max_tweets)) tweets
              else take (Z.to_nat max_tweets) tweets).
Proof.
  destruct (capture_run_steps encode m
              (limit_tweets (Some max_tweets) tweets) w0) as (w1 & _ & _ & ->).
  destruct (process_tweets _ _ _ _ _ w1) as [r w2] eqn:E. cbn [fst snd].
  intros [= -> _]. apply process_tweets_metadata in E as (_ & -> & _).
  cbn [all_tweets app limit_tweets]. by rewrite slice_to_take.
Qed.

(** With a limit of -1 the example run processes the first of its two
    tweets only. *)
Lemma capture_limited_witness :
  ∃ run w,
    capture_detailed_activations example_encode example_model
      (limit_tweets (Some (-1)%Z) example_tweets) (@init_world Q)
    = (Ok run, w) ∧
    all_tweets run = ["so happy"].
Proof.
  destruct (capture_detailed_activations example_encode example_model
              (limit_tweets (Some (-1)%Z) example_tweets) init_world)
    as [r w] eqn:E.
  destruct r as [run|e]; [|vm_compute in E; discriminate].
  exists run, w. split; [reflexivity|].
  exact (capture_limited example_encode example_model example_tweets (-1)%Z
           init_world w run E).
Defined.

(** ** The files of a capture, as the analysis scripts list them *)

Lemma rev_app_app (s1 s2 acc : string) :
  String.rev_app (s1 +:+ s2) acc = String.rev_app s2 (String.rev_app s1 acc).
Proof.
  revert acc. induction s1 as [|c s1 IH]; intros acc; [done|].
  change (String.rev_app (s1 +:+ s2) (String c acc)
          = String.rev_app s2 (String.rev_app s1 (String c acc))).
  apply IH.
Qed.

Lemma rev_app_acc (s acc : string) :
  String.rev_app s acc = String.rev_app s "" +:+ acc.
Proof.
  revert acc. induction s as [|c s IH]; intros acc; [done|].
  cbn [String.rev_app]. rewrite (IH (String c acc)), (IH (String c "")).
  generalize (String.rev_app s ""). intros r.
  induction r as [|d r IHr]; [done|].
  change (String d (r +:+ String c acc) = String d ((r +:+ String c "") +:+ acc)).
  by rewrite IHr.
Qed.

Lemma prefix_app (p s : string) : String.prefix p (p +:+ s) = true.
Proof.
  induction p as [|c p IH]; [by destruct s|].
  change (String.prefix (String c p) (String c (p +:+ s)) = true).
  cbn [String.prefix]. by destruct (Ascii.ascii_dec c c).
Qed.

Lemma endswith_app (s suffix : string) : endswith (s +:+ suffix) suffix = true.
Proof.
  unfold endswith, String.rev.
  rewrite rev_app_app, (rev_app_acc suffix (String.rev_app s "")).
  apply prefix_app.
Qed.

(** X19: of the files a capture wrote, the listing that the analysis
    scripts make (the names ending in [_activations.pt]) holds exactly one
    file per captured component: [gen_metadata.pt] and [samples.json] are
    never among them. *)
Theorem activation_files_of_capture {F} (run : capture_run F)
    (listdir : list string) (f : string) :
  (∀ g, g ∈ listdir ↔ g ∈ saved_files run) →
  f ∈ activation_files_of listdir ↔
  ∃ name, name ∈ dom (activation_data run) ∧ f = name +:+ "_activations.pt".
Proof.
  intros Hdir. unfold activation_files_of.
  rewrite list_elem_of_filter, Hdir, elem_of_saved_files. split.
  - intros [Hend [Hname|[->| ->]]]; [done|discriminate|discriminate].
  - intros (name & Hin & ->). split; [apply endswith_app|].
    left. by exists name.
Qed.

Lemma activation_files_of_capture_witness :
  "final_layer_activations.pt"
  ∈ activation_files_of
      (saved_files (CaptureRun {["final_layer" := [Sample example_rank2 "joy" "0"]]}
                      ["0"] ["so happy"] ["joy"] ["!"] [8])).
Proof.
  apply (activation_files_of_capture
           (CaptureRun {["final_layer" := [Sample example_rank2 "joy" "0"]]}
              ["0"] ["so happy"] ["joy"] ["!"] [8])
           _ "final_layer_activations.pt" (λ g, reflexivity _)).
  exists "final_layer". split; [|reflexivity].
  apply elem_of_dom. eexists. apply lookup_singleton_eq.
Defined.

(** ** One emotion only *)

Section SingleEmotion.
Context {F : Type} `{Scalar F} `{Argsort F}.

Lemma collect_from_labels (i : nat) (labels : list string)
    (layer_data : list (item F)) (l : string) :
  l ∈ (collect_from i labels layer_data).1.*2 → l ∈ labels.
Proof.
  revert i. induction layer_data as [|it rest IH]; intros i; cbn.
  - intros Hin. by apply elem_of_nil in Hin.
  - specialize (IH (S i)).
    destruct (collect_from (S i) labels rest) as [acc logs].
    destruct (length labels <=? i); [done|].
    destruct it as [[a|]|]; [|done..].
    destruct (labels !! i) as [label|] eqn:E; [|done].
    destruct (normalize_one a) as [v lg]. cbn.
    intros [->|Hin]%elem_of_cons; [|by apply IH].
    by eapply list_elem_of_lookup_2.
Qed.

Lemma where_label_none (test : string → bool) (labels : list string) :
  (∀ l, l ∈ labels → test l = false) → where_label test labels = [].
Proof.
  intros Hall. destruct (where_label test labels) as [|i idx] eqn:E; [done|].
  assert (Hi : i ∈ where_label test labels) by (rewrite E; left).
  apply elem_of_where_label in Hi as (l & Hl & Ht).
  rewrite Hall in Ht; [done|]. by eapply list_elem_of_lookup_2.
Qed.

Lemma importance_single_emotion (width : nat)
    (activations_array : list (list F)) (all_labels : list string)
    (only emotion : string) :
  (∀ l, l ∈ all_labels → l = only) →
  importance width activations_array all_labels emotion = Ok Skipped.
Proof.
  intros Hall. unfold importance.
  destruct (decide (emotion = only)) as [->|Hne].
  - rewrite (where_label_none (λ l, bool_decide (l ≠ only))).
    + by rewrite andb_false_r.
    + intros l Hl. apply bool_decide_eq_false. intros Hn. by apply Hn, Hall.
  - rewrite (where_label_none (λ l, bool_decide (l = emotion))); [done|].
    intros l Hl. apply bool_decide_eq_false. intros ->. by apply Hne, Hall.
Qed.

Lemma importance_loop_single_emotion (layer : string) (width : nat)
    (activations_array : list (list F)) (all_labels emotions : list string)
    (only : string) (st : analysis F) :
  (∀ l, l ∈ all_labels → l = only) →
  importance_loop layer width activations_array all_labels emotions st = Ok st.
Proof.
  intros Hall. induction emotions as [|emotion rest IH]; [done|].
  cbn [importance_loop].
  by rewrite (importance_single_emotion _ _ _ only emotion Hall).
Qed.

Lemma process_layer_single_emotion (labels : list string)
    (torch_load : string → list (item F)) (st st' : analysis F)
    (layer only : string) :
  (∀ l, l ∈ labels → l = only) →
  process_layer labels torch_load st layer = Ok st' →
  neuron_importance_by_emotion st' = neuron_importance_by_emotion st.
Proof.
  intros Hall. unfold process_layer.
  pose proof (collect_from_labels 0 labels
                (torch_load (layer +:+ "_activations.pt"))) as Hkept.
  destruct (collect_from _ _ _) as [kept logs]. cbn [fst] in Hkept.
  destruct (kept.*1) as [|a rest] eqn:E.
  - by intros [= <-].
  - destruct (stack_layer _ _ _) as [[sl logs2]|e]; cbn; [|done].
    destruct sl as [width activations_array stored_labels|].
    + rewrite (importance_loop_single_emotion _ _ _ _ _ only)
        by (intros l Hl; by apply Hall, Hkept).
      by intros [= <-].
    + by intros [= <-].
Qed.

Lemma process_layers_single_emotion (labels : list string)
    (torch_load : string → list (item F)) (layers : list string)
    (st st' : analysis F) (only : string) :
  (∀ l, l ∈ labels → l = only) →
  process_layers labels torch_load layers st = Ok st' →
  neuron_importance_by_emotion st' = neuron_importance_by_emotion st.
Proof.
  intros Hall. revert st.
  induction layers as [|layer rest IH]; intros st; cbn.
  - by intros [= <-].
  - destruct (process_layer _ _ _ _) as [st1|e] eqn:E; cbn; [|done].
    intros Hrest. rewrite (IH _ Hrest).
    by eapply process_layer_single_emotion.
Qed.

(** X20: when all the labels of the metadata are the same emotion,
    [load_activations] computes no neuron importance at all: for every
    layer the emotion has no other examples to be compared with, so the
    dictionary it returns is empty and the report has nothing to
    recommend. *)
Theorem single_emotion_no_importance (zero : F) (listdir : list string)
    (torch_load : string → list (item F)) (labels : list string)
    (only : string) (st : analysis F) (key_layers : list string) :
  (∀ l, l ∈ labels → l = only) →
  load_activations listdir torch_load labels = Ok (st, key_layers) →
  neuron_importance_by_emotion st = ∅ ∧
  ∀ emotion, recommend zero (neuron_importance_by_emotion st) key_layers emotion
             = Ok NoStrongNeurons.
Proof.
  intros Hall. unfold load_activations.
  generalize (key_layers_of (activation_files_of listdir)). intros layers.
  destruct (process_layers _ _ _ _) as [st1|e] eqn:E;
    cbn [bind_result]; [|done].
  intros [= -> <-].
  apply (process_layers_single_emotion _ _ _ _ _ only Hall) in E.
  cbn in E. split; [done|]. intros emotion. rewrite E. unfold recommend.
  rewrite best_search_none; [done|].
  intros layer neurons s scores _. unfold entry. by rewrite lookup_empty.
Qed.
End SingleEmotion.

(** Two vectors that are both labelled joy. *)
Lemma single_emotion_no_importance_witness :
  ∃ st key_layers,
    @load_activations Q Q_scalar (@argsort_insertion Q Q_scalar)
      ["final_layer_activations.pt"; "gen_metadata.pt"]
      (λ _, [ItemDict (Some (Tensor [2] [1; 0]%Q));
             ItemDict (Some (Tensor [2] [0; 1]%Q))])
      ["joy"; "joy"]
    = Ok (st, key_layers) ∧
    neuron_importance_by_emotion st = ∅.
Proof.
  destruct (@load_activations Q Q_scalar (@argsort_insertion Q Q_scalar)
              ["final_layer_activations.pt"; "gen_metadata.pt"]
              (λ _, [ItemDict (Some (Tensor [2] [1; 0]%Q));
                     ItemDict (Some (Tensor [2] [0; 1]%Q))])
              ["joy"; "joy"]) as [[st key_layers]|e] eqn:E;
    [|vm_compute in E; discriminate].
  exists st, key_layers. split; [reflexivity|].
  refine (proj1 (@single_emotion_no_importance Q Q_scalar
                   (@argsort_insertion Q Q_scalar) 0%Q _ _ _ "joy"
                   st key_layers _ E)).
  intros l Hl.
  repeat (apply elem_of_cons in Hl as [->|Hl]; [reflexivity|]).
  by apply elem_of_nil in Hl.
Defined.

(** ** The emotions of the analysis *)

Section Emotions.
Context {F : Type} `{Scalar F} `{Argsort F}.

Lemma record_by_emotion_dom (layer : string) (kept : list (tensor F * string))
    (m : gmap string (gmap string (list (tensor F)))) :
  dom (record_by_emotion layer kept m) = dom m ∪ list_to_set kept.*2.
Proof.
  unfold record_by_emotion. revert m.
  induction kept as [|vl kept IH]; intros m; cbn [foldl].
  - cbn. set_solver.
  - rewrite IH, dom_insert_L, fmap_cons, list_to_set_cons. set_solver.
Qed.

Lemma importance_loop_emotions (layer : string) (width : nat)
    (activations_array : list (list F)) (all_labels emotions : list string)
    (st st' : analysis F) :
  importance_loop layer width activations_array all_labels emotions st = Ok st' →
  activations_by_emotion st' = activations_by_emotion st ∧
  dom (neuron_importance_by_emotion st')
  ⊆ dom (neuron_importance_by_emotion st) ∪ list_to_set emotions.
Proof.
  revert st. induction emotions as [|emotion rest IH]; intros st; cbn.
  - intros [= <-]. split; [done|set_solver].
  - destruct (importance _ _ _ _) as [[neurons scores|]|e]; cbn; [| |done].
    + intros [Hbe Hni]%IH. cbn in Hbe, Hni. split; [done|].
      rewrite dom_insert_L in Hni. set_solver.
    + intros [Hbe Hni]%IH. split; [done|]. set_solver.
Qed.

Lemma process_layer_emotions (labels : list string)
    (torch_load : string → list (item F)) (st st' : analysis F)
    (layer : string) :
  dom (neuron_importance_by_emotion st) ⊆ dom (activations_by_emotion st) →
  (∀ e, e ∈ dom (activations_by_emotion st) → e ∈ labels) →
  process_layer labels torch_load st layer = Ok st' →
  dom (neuron_importance_by_emotion st') ⊆ dom (activations_by_emotion st') ∧
  (∀ e, e ∈ dom (activations_by_emotion st') → e ∈ labels).
Proof.
  intros Hsub Hlab. unfold process_layer.
  pose proof (collect_from_labels 0 labels
                (torch_load (layer +:+ "_activations.pt"))) as Hkept.
  destruct (collect_from _ _ _) as [kept logs]. cbn [fst] in Hkept.
  pose proof (record_by_emotion_dom layer kept (activations_by_emotion st))
    as Hdom.
  assert (Hlab' : ∀ e, e ∈ dom (record_by_emotion layer kept
                                   (activations_by_emotion st)) → e ∈ labels).
  { intros e. rewrite Hdom, elem_of_union, elem_of_list_to_set.
    intros [?|?]; [by apply Hlab|by apply Hkept]. }
  destruct (kept.*1) as [|a rest] eqn:E.
  - intros [= <-]. cbn. split; [set_solver|done].
  - destruct (stack_layer _ _ _) as [[sl logs2]|e]; cbn; [|done].
    destruct sl as [width activations_array stored_labels|].
    + intros [Hbe Hni]%importance_loop_emotions. cbn in Hbe, Hni.
      rewrite Hbe. split; [|done]. rewrite Hdom.
      intros e He. apply Hni in He. apply elem_of_union in He as [He|He].
      * apply elem_of_union. left. by apply Hsub.
      * apply elem_of_union. right.
        rewrite elem_of_list_to_set, np_unique_elem_of in He.
        by apply elem_of_list_to_set.
    + intros [= <-]. cbn. split; [set_solver|done].
Qed.

Lemma process_layers_emotions (labels : list string)
    (torch_load : string → list (item F)) (layers : list string)
    (st st' : analysis F) :
  dom (neuron_importance_by_emotion st) ⊆ dom (activations_by_emotion st) →
  (∀ e, e ∈ dom (activations_by_emotion st) → e ∈ labels) →
  process_layers labels torch_load layers st = Ok st' →
  dom (neuron_importance_by_emotion st') ⊆ dom (activations_by_emotion st') ∧
  (∀ e, e ∈ dom (activations_by_emotion st') → e ∈ labels).
Proof.
  revert st. induction layers as [|layer rest IH]; intros st Hsub Hlab; cbn.
  - by intros [= <-].
  - destruct (process_layer _ _ _ _) as [st1|e] eqn:E; cbn; [|done].
    apply (process_layer_emotions _ _ _ _ _ Hsub Hlab) in E as [Hsub1 Hlab1].
    by apply IH.
Qed.

(** X21: in what [load_activations] returns, every emotion that has a
    neuron ranking also has recorded activations, so it is among the
    emotions the main program hands to the report, and every emotion with
    recorded activations is a label of the metadata. *)
Theorem load_activations_emotions (listdir : list string)
    (torch_load : string → list (item F)) (labels : list string)
    (st : analysis F) (key_layers : list string) :
  load_activations listdir torch_load labels = Ok (st, key_layers) →
  dom (neuron_importance_by_emotion st) ⊆ dom (activations_by_emotion st) ∧
  ∀ emotion, emotion ∈ dom (activations_by_emotion st) → emotion ∈ labels.
Proof.
  unfold load_activations.
  generalize (key_layers_of (activation_files_of listdir)). intros layers.
  destruct (process_layers _ _ _ _) as [st1|e] eqn:E;
    cbn [bind_result]; [|done].
  intros [= -> <-].
  apply process_layers_emotions in E; [done|cbn; set_solver|].
  cbn. intros e He. rewrite dom_empty_L in He. by apply elem_of_empty in He.
Qed.
End Emotions.

Lemma load_activations_emotions_witness :
  ∃ st key_layers,
    @load_activations Q Q_scalar (@argsort_insertion Q Q_scalar)
      ["final_layer_activations.pt"; "gen_metadata.pt"]
      (λ _, [ItemDict (Some (Tensor [2] [1; 0]%Q));
             ItemDict (Some (Tensor [2] [0; 1]%Q))])
      ["joy"; "sad"]
    = Ok (st, key_layers) ∧
    dom (neuron_importance_by_emotion st) ⊆ dom (activations_by_emotion st).
Proof.
  destruct (@load_activations Q Q_scalar (@argsort_insertion Q Q_scalar)
              ["final_layer_activations.pt"; "gen_metadata.pt"]
              (λ _, [ItemDict (Some (Tensor [2] [1; 0]%Q));
                     ItemDict (Some (Tensor [2] [0; 1]%Q))])
              ["joy"; "sad"]) as [[st key_layers]|e] eqn:E;
    [|vm_compute in E; discriminate].
  exists st, key_layers. split; [reflexivity|].
  exact (proj1 (@load_activations_emotions Q Q_scalar
                  (@argsort_insertion Q Q_scalar) _ _ _ st key_layers E)).
Defined.
